(** * A bounded blocking pool of network connections

    Shallow embedding of the Go package [pool]: the configuration and its
    merge ([Config], [Merge]), the capped deque over [container/list]
    ([deque]), the deque gated by a buffered channel ([blockingDeque]) and
    the pool with its connection handles ([blockingPool], [WrappedConn]).

    The embedding is sequential: every method runs to completion before
    the next one starts.  Locks therefore disappear, a buffered channel of
    [struct{}] is its capacity and the number of tokens it holds, and a
    [select] is decided by the state it finds. *)

From Stdlib Require Import ZArith List String Bool Lia.
From stdpp Require Import base list.
Import ListNotations.
Local Open Scope Z_scope.

(** ** Go integers *)

(** [int], [int64] and [time.Duration] are 64-bit two's complement. *)
Definition min_int : Z := - 2 ^ 63.
Definition max_int : Z := 2 ^ 63 - 1.
Definition is_int (z : Z) : Prop := min_int <= z <= max_int.
Definition wrap64 (z : Z) : Z := (z + 2 ^ 63) mod 2 ^ 64 - 2 ^ 63.
Definition int_sub (a b : Z) : Z := wrap64 (a - b).

(** [time.Time.Sub] saturates at the extreme durations instead of wrapping. *)
Definition sat64 (z : Z) : Z :=
  if z <? min_int then min_int else if max_int <? z then max_int else z.

(** Instants are nanoseconds on an unbounded line; [time.Since(t)] is
    [time.Now().Sub(t)], where [now] is the reading of the clock. *)
Definition time_since (now t : Z) : Z := sat64 (now - t).

Definition Nanosecond : Z := 1.
Definition Second : Z := 1000000000 * Nanosecond.

(** ** Outcomes, errors *)

(** A call returns, panics (nil dereference, [make] with a negative size)
    or blocks for ever (a send on a full channel nobody receives from). *)
Inductive res (A : Type) : Type :=
| Ret (a : A)
| Panic
| Block.
Arguments Ret {A} a.
Arguments Panic {A}.
Arguments Block {A}.

(** The package's error values.  [ErrClosed] and [ErrTimeout] are declared in
    a file of the package that holds no code; a dial error is whatever the
    factory returned, [errCreate] is [fmt.Errorf("create connection fail: %s", err)]. *)
Inductive error : Type :=
| ErrTimeout
| ErrClosed
| errDequeFull
| errInvalidCapacity
| errDial (msg : string)
| errCreate (cause : error).

(** A Go pair [(T, error)] with exactly one side meaningful. *)
Inductive result (A : Type) : Type :=
| Ok (a : A)
| Err (e : error).
Arguments Ok {A} a.
Arguments Err {A} e.

(** ** Configuration *)

(** [type CacheMethod int] with the [iota] constants. *)
Definition CacheMethod : Type := Z.
Definition UndefinedCacheMethod : CacheMethod := 0.
Definition FIFO : CacheMethod := 1.
Definition FILO : CacheMethod := 2.

Record Config : Type := mkConfig {
  cacheMethod : CacheMethod;
  InitCap : Z;
  MaxCap : Z;
  IdleTimeout : Z;
  WaitTimeout : Z;
  IOTimeout : Z;
  DialTimeout : Z
}.

Definition defaultConfig : Config :=
  {| cacheMethod := FIFO;
     InitCap := 0;
     MaxCap := 1;
     IdleTimeout := 3 * Second;
     WaitTimeout := 3 * Second;
     IOTimeout := 30 * Second;
     DialTimeout := 30 * Second |}.

Definition set_MaxCap (v : Z) (c : Config) : Config :=
  mkConfig (cacheMethod c) (InitCap c) v (IdleTimeout c) (WaitTimeout c) (IOTimeout c) (DialTimeout c).
Definition set_DialTimeout (v : Z) (c : Config) : Config :=
  mkConfig (cacheMethod c) (InitCap c) (MaxCap c) (IdleTimeout c) (WaitTimeout c) (IOTimeout c) v.
Definition set_IOTimeout (v : Z) (c : Config) : Config :=
  mkConfig (cacheMethod c) (InitCap c) (MaxCap c) (IdleTimeout c) (WaitTimeout c) v (DialTimeout c).
Definition set_WaitTimeout (v : Z) (c : Config) : Config :=
  mkConfig (cacheMethod c) (InitCap c) (MaxCap c) (IdleTimeout c) v (IOTimeout c) (DialTimeout c).
Definition set_IdleTimeout (v : Z) (c : Config) : Config :=
  mkConfig (cacheMethod c) (InitCap c) (MaxCap c) v (WaitTimeout c) (IOTimeout c) (DialTimeout c).

(** One [if new.F > 0 && new.F != result.F { changed = true; result.F = new.F }]. *)
Definition adopt (get : Config -> Z) (set : Z -> Config -> Config)
    (new : Config) (acc : Config * bool) : Config * bool :=
  let '(result, changed) := acc in
  if (0 <? get new) && negb (get new =? get result)
  then (set (get new) result, true)
  else (result, changed).

(** [func (c *Config) Merge(new Config) (Config, bool)] *)
Definition Merge (c new : Config) : Config * bool :=
  let acc := (c, false) in
  let acc := adopt MaxCap set_MaxCap new acc in
  let acc := adopt DialTimeout set_DialTimeout new acc in
  let acc := adopt IOTimeout set_IOTimeout new acc in
  let acc := adopt WaitTimeout set_WaitTimeout new acc in
  let acc := adopt IdleTimeout set_IdleTimeout new acc in
  acc.

(** ** The deque *)

(** Removing the last element of a list: [container.Back()] and [Remove]. *)
Fixpoint unsnoc {A : Type} (l : list A) : option (list A * A) :=
  match l with
  | [] => None
  | x :: l' =>
      match unsnoc l' with
      | None => Some ([], x)
      | Some (init, y) => Some (x :: init, y)
      end
  end.

Module Deque.
Section Deque.
Context {A : Type}.

(** The payload type [A] stands for the non-nil [interface{}] values that
    are stored; the list is kept front first. *)
Record deque : Type := mkDeque {
  container : list A;
  capacity : Z
}.

Definition newDeque (capacity : Z) : deque :=
  {| container := []; capacity := capacity |}.

Definition has_room (s : deque) : bool :=
  (capacity s <? 0) || (Z.of_nat (length (container s)) <? capacity s).

Definition append (s : deque) (item : A) : deque * bool :=
  if has_room s
  then ({| container := container s ++ [item]; capacity := capacity s |}, true)
  else (s, false).

Definition prepend (s : deque) (item : A) : deque * bool :=
  if has_room s
  then ({| container := item :: container s; capacity := capacity s |}, true)
  else (s, false).

(** [None] is the nil interface returned for an empty deque. *)
Definition pop (s : deque) : deque * option A :=
  match unsnoc (container s) with
  | None => (s, None)
  | Some (init, x) => ({| container := init; capacity := capacity s |}, Some x)
  end.

(** [walk] calls [walkFn] on every element from the front; the callback
    works on a state [St] of its own and a panic in it ends the walk. *)
Fixpoint walk_items {St : Type} (walkFn : A -> St -> res unit * St)
    (items : list A) (st : St) : res unit * St :=
  match items with
  | [] => (Ret tt, st)
  | x :: rest =>
      match walkFn x st with
      | (Ret _, st') => walk_items walkFn rest st'
      | (Panic, st') => (Panic, st')
      | (Block, st') => (Block, st')
      end
  end.

Definition walk {St : Type} (s : deque) (walkFn : A -> St -> res unit * St)
    : St -> res unit * St :=
  walk_items walkFn (container s).
End Deque.
Arguments deque A : clear implicits.
End Deque.

(** ** The bounded queue: a deque behind a gate *)

Module BlockingDeque.
Section BlockingDeque.
Context {A : Type}.

(** [gate chan struct{}]: its capacity and the tokens it holds. *)
Record blockingDeque : Type := mkBlockingDeque {
  dq : Deque.deque A;
  gate_cap : Z;
  gate_len : nat
}.

Definition gate_full (q : blockingDeque) : bool :=
  gate_cap q <=? Z.of_nat (gate_len q).

(** [q.gate <- struct{}{}] outside a [select]. *)
Definition send (q : blockingDeque) : res blockingDeque :=
  if gate_full q then Block
  else Ret {| dq := dq q; gate_cap := gate_cap q; gate_len := S (gate_len q) |}.

Fixpoint fill (n : nat) (q : blockingDeque) : res blockingDeque :=
  match n with
  | O => Ret q
  | S n' =>
      match send q with
      | Ret q' => fill n' q'
      | Panic => Panic
      | Block => Block
      end
  end.

(** [make(chan struct{}, maxCap)] panics on a negative size; the loop
    sends [nilCap] tokens, none when [nilCap <= 0]. *)
Definition newBlockingDeque (maxCap nilCap : Z) : res blockingDeque :=
  if maxCap <? 0 then Panic
  else fill (Z.to_nat nilCap)
         {| dq := Deque.newDeque maxCap; gate_cap := maxCap; gate_len := 0 |}.

(** [select] between the timer and the gate: with a token in the gate the
    receive is taken, without one nothing can arrive and the timer fires. *)
Definition pop (q : blockingDeque) (timeout : Z) : blockingDeque * result (option A) :=
  match gate_len q with
  | O => (q, Err ErrTimeout)
  | S n =>
      let '(d, elem) := Deque.pop (dq q) in
      ({| dq := d; gate_cap := gate_cap q; gate_len := n |}, Ok elem)
  end.

(** [select] with a [default]: the send is taken when the gate has room. *)
Definition append (q : blockingDeque) (item : A) : blockingDeque * option error :=
  if gate_full q then (q, Some errDequeFull)
  else
    ({| dq := fst (Deque.append (dq q) item);
        gate_cap := gate_cap q; gate_len := S (gate_len q) |}, None).

Definition prepend (q : blockingDeque) (item : A) : blockingDeque * option error :=
  if gate_full q then (q, Some errDequeFull)
  else
    ({| dq := fst (Deque.prepend (dq q) item);
        gate_cap := gate_cap q; gate_len := S (gate_len q) |}, None).

Definition Walk {St : Type} (q : blockingDeque) (walkFn : A -> St -> res unit * St)
    : St -> res unit * St :=
  Deque.walk (dq q) walkFn.

(** The queues a program can hold: built by [newBlockingDeque], then
    changed by [pop], [append] and [prepend] only ([Walk] does not touch
    the queue). *)
Inductive reachable : blockingDeque -> Prop :=
| reach_new (maxCap nilCap : Z) (q : blockingDeque) :
    newBlockingDeque maxCap nilCap = Ret q -> reachable q
| reach_pop (q : blockingDeque) (timeout : Z) :
    reachable q -> reachable (fst (pop q timeout))
| reach_append (q : blockingDeque) (item : A) :
    reachable q -> reachable (fst (append q item))
| reach_prepend (q : blockingDeque) (item : A) :
    reachable q -> reachable (fst (prepend q item)).

(** Representation invariant: the deque and the gate share one capacity,
    and the deque never holds more elements than the gate holds tokens. *)
Definition wf (q : blockingDeque) : Prop :=
  Deque.capacity (dq q) = gate_cap q /\
  0 <= gate_cap q /\
  (length (Deque.container (dq q)) <= gate_len q)%nat /\
  Z.of_nat (gate_len q) <= gate_cap q.
End BlockingDeque.
Arguments blockingDeque A : clear implicits.
End BlockingDeque.

(** ** Handles, the pool and the world around it *)

(** A value of type [*WrappedConn]: nil, or the address of a handle. *)
Inductive wptr : Type :=
| Nil
| Ptr (a : nat).

(** The identity of a transport ([net.Conn]) handed out by a factory. *)
Definition conn : Type := nat.

(** Calls that leave the package: a dial through the factory, and
    [Close] on a transport. *)
Inductive event : Type :=
| EvDial (address : string) (dialTimeout : Z)
| EvClose (c : conn).

Inductive dial_result : Type :=
| DialOk (c : conn)
| DialErr (msg : string).

(** [type Factory func(address string, dialTimeout time.Duration) (net.Conn, error)];
    user code, which may answer by what happened so far. *)
Definition Factory : Type := string -> Z -> list event -> dial_result.

(** [WrappedConn]; its [pool] field always points to the one pool of the
    state below. *)
Record WrappedConn : Type := mkWrappedConn {
  Conn : conn;
  unusable : bool;
  lastAccess : Z
}.

Record blockingPool : Type := mkPool {
  address : string;
  conns : option (BlockingDeque.blockingDeque wptr);
  factory : Factory;
  config : Config
}.

(** The pool, the handles allocated so far (a pointer is an index), the
    calls made to the outside, and the number of clock readings taken. *)
Record state : Type := mkState {
  pool : blockingPool;
  heap : list WrappedConn;
  trace : list event;
  ticks : nat
}.

Definition M (A : Type) : Type := state -> res A * state.

Definition ret {A : Type} (a : A) : M A := fun s => (Ret a, s).

Definition bind {A B : Type} (m : M A) (k : A -> M B) : M B :=
  fun s =>
    match m s with
    | (Ret a, s') => k a s'
    | (Panic, s') => (Panic, s')
    | (Block, s') => (Block, s')
    end.

Definition panic {A : Type} : M A := fun s => (Panic, s).

Notation "'let*' x ':=' m 'in' k" := (bind m (fun x => k))
  (at level 10, x name, m at level 100, k at level 200).
Notation "'do' m 'then' k" := (bind m (fun _ => k))
  (at level 10, m at level 100, k at level 200).

(** Field updates of the pool and of the state. *)
Definition with_conns (q : option (BlockingDeque.blockingDeque wptr))
    (p : blockingPool) : blockingPool :=
  {| address := address p; conns := q; factory := factory p; config := config p |}.

Definition with_config (c : Config) (p : blockingPool) : blockingPool :=
  {| address := address p; conns := conns p; factory := factory p; config := c |}.

Definition upd_pool (f : blockingPool -> blockingPool) (s : state) : state :=
  {| pool := f (pool s); heap := heap s; trace := trace s; ticks := ticks s |}.

Definition upd_heap (f : list WrappedConn -> list WrappedConn) (s : state) : state :=
  {| pool := pool s; heap := f (heap s); trace := trace s; ticks := ticks s |}.

Definition log (e : event) (s : state) : state :=
  {| pool := pool s; heap := heap s; trace := trace s ++ [e]; ticks := ticks s |}.

Definition tick (s : state) : state :=
  {| pool := pool s; heap := heap s; trace := trace s; ticks := S (ticks s) |}.

Definition get_pool : M blockingPool := fun s => (Ret (pool s), s).

Definition set_conns (q : option (BlockingDeque.blockingDeque wptr)) : M unit :=
  fun s => (Ret tt, upd_pool (with_conns q) s).

Definition set_config (c : Config) : M unit :=
  fun s => (Ret tt, upd_pool (with_config c) s).

(** Dereferencing a handle pointer; nil panics.  An address outside the
    heap does not occur in a Go program and is treated alike. *)
Definition load (c : wptr) : M WrappedConn :=
  fun s =>
    match c with
    | Nil => (Panic, s)
    | Ptr a =>
        match heap s !! a with
        | Some h => (Ret h, s)
        | None => (Panic, s)
        end
    end.

Definition store (a : nat) (h : WrappedConn) : M unit :=
  fun s => (Ret tt, upd_heap (fun hp => <[a := h]> hp) s).

Definition alloc (h : WrappedConn) : M wptr :=
  fun s => (Ret (Ptr (length (heap s))), upd_heap (fun hp => hp ++ [h]) s).

Definition emit (e : event) : M unit :=
  fun s => (Ret tt, log e s).

Definition mark (h : WrappedConn) : WrappedConn :=
  {| Conn := Conn h; unusable := true; lastAccess := lastAccess h |}.

Definition touch (t : Z) (h : WrappedConn) : WrappedConn :=
  {| Conn := Conn h; unusable := unusable h; lastAccess := t |}.

Definition set_unusable (c : wptr) : M unit :=
  let* h := load c in
  match c with
  | Nil => panic
  | Ptr a => store a (mark h)
  end.

Definition set_lastAccess (c : wptr) (t : Z) : M unit :=
  let* h := load c in
  match c with
  | Nil => panic
  | Ptr a => store a (touch t h)
  end.

Section Pool.
(** The clock: its [n]-th reading. *)
Variable clock : nat -> Z.
(** [defaultFactory], [net.DialTimeout("tcp", address, dialTimeout)]. *)
Variable defaultFactory : Factory.

(** [time.Now()] *)
Definition now : M Z :=
  fun s => (Ret (clock (ticks s)), tick s).

(** [p.factory(p.address, p.DialTimeout)] *)
Definition dial : M dial_result :=
  fun s =>
    let p := pool s in
    let ad := address p in
    let dt := DialTimeout (config p) in
    (Ret (factory p ad dt (trace s)), log (EvDial ad dt) s).

(** [func (c *WrappedConn) destroy()] *)
Definition destroy (c : wptr) : M unit :=
  let* h := load c in
  emit (EvClose (Conn h)).

(** [func (c *WrappedConn) checkIdle() bool] *)
Definition checkIdle (c : wptr) : M bool :=
  let* h := load c in
  let* t := now in
  let* p := get_pool in
  if IdleTimeout (config p) <? time_since t (lastAccess h)
  then do set_unusable c then do destroy c then ret false
  else ret true.

(** [func (c *WrappedConn) MarkUnusable()] *)
Definition MarkUnusable (c : wptr) : M unit := set_unusable c.

(** [Write] and [Read]: [io_ok] tells whether the transport reported no
    error. *)
Definition Write (c : wptr) (io_ok : bool) : M unit :=
  do load c then
  if io_ok then let* t := now in set_lastAccess c t else set_unusable c.

Definition Read (c : wptr) (io_ok : bool) : M unit :=
  do load c then
  if io_ok then let* t := now in set_lastAccess c t else set_unusable c.

(** [func (p *blockingPool) NewWrapConn()], returning a [*WrappedConn] and an error *)
Definition NewWrapConn : M (result wptr) :=
  let* r := dial in
  match r with
  | DialErr msg => ret (Err (errDial msg))
  | DialOk c =>
      let* t := now in
      let* a := alloc {| Conn := c; unusable := false; lastAccess := t |} in
      ret (Ok a)
  end.

(** [func (p *blockingPool) Get()], returning a [*WrappedConn] and an error *)
Definition Get : M (result wptr) :=
  let* p := get_pool in
  match conns p with
  | None => ret (Err ErrClosed)
  | Some q =>
      match BlockingDeque.pop q (WaitTimeout (config p)) with
      | (_, Err e) => ret (Err e)
      | (q', Ok item) =>
          do set_conns (Some q') then
          match item with
          | None => NewWrapConn
          | Some c =>
              let* h := load c in
              if unusable h then NewWrapConn else ret (Ok c)
          end
      end
  end.

(** [func (p *blockingPool) putTop(conn *WrappedConn) error] *)
Definition putTop (c : wptr) : M (option error) :=
  let* p := get_pool in
  match conns p with
  | None => do destroy c then ret (Some ErrClosed)
  | Some q =>
      do set_conns (Some (fst (BlockingDeque.prepend q c))) then
      ret None
  end.

(** [func (p *blockingPool) putBottom(conn *WrappedConn) error] *)
Definition putBottom (c : wptr) : M (option error) :=
  let* p := get_pool in
  match conns p with
  | None => do destroy c then ret (Some ErrClosed)
  | Some q =>
      do set_conns (Some (fst (BlockingDeque.append q c))) then
      ret None
  end.

(** [func (p *blockingPool) put(conn *WrappedConn) error] *)
Definition put (c : wptr) : M (option error) :=
  let* p := get_pool in
  if cacheMethod (config p) =? FIFO then putBottom c else putTop c.

(** [func (c *WrappedConn) Close() error]; the error is always nil. *)
Definition Close (c : wptr) : M unit :=
  let* h := load c in
  if unusable h
  then do destroy c then do putBottom Nil then ret tt
  else
    let* err := put c in
    match err with
    | Some _ => destroy c
    | None => ret tt
    end.

(** The callback that [checkIdleConn] hands to [Walk]; every stored
    element is a [*WrappedConn], so that its type assertion succeeds. *)
Definition idle_visit (item : wptr) : M unit :=
  let* alive := checkIdle item in ret tt.

(** One round of [checkIdleConn], after its sleep. *)
Definition sweep : M unit :=
  let* p := get_pool in
  match conns p with
  | None => panic
  | Some q => BlockingDeque.Walk q idle_visit
  end.

(** [func (p *blockingPool) Update(c Config)] *)
Definition Update (c : Config) : M unit :=
  let* p := get_pool in
  let '(c', changed) := Merge (config p) c in
  if changed then
    do (if negb (MaxCap c' =? MaxCap (config p))
        then
          fun s =>
            match BlockingDeque.newBlockingDeque (MaxCap c')
                    (int_sub (MaxCap c') (MaxCap (config p))) with
            | Ret q => set_conns (Some q) s
            | Panic => (Panic, s)
            | Block => (Block, s)
            end
        else ret tt)
    then set_config c'
  else ret tt.

(** The eager loop of [NewBlockingPool]: [n] iterations left. *)
Fixpoint init_conns (n : nat) : M (option error) :=
  match n with
  | O => ret None
  | S n' =>
      let* r := NewWrapConn in
      match r with
      | Err e => ret (Some (errCreate e))
      | Ok c =>
          let* p := get_pool in
          match conns p with
          | None => panic
          | Some q =>
              do set_conns (Some (fst (BlockingDeque.prepend q c))) then
              init_conns n'
          end
      end
  end.

(** [func NewBlockingPool(address string, c Config, factory Factory) (Pool, error)];
    [None] for a nil factory.  The world starts with no handle, no call
    made and no clock reading taken. *)
Definition NewBlockingPool (address : string) (c : Config) (factory : option Factory)
    : res (result state) :=
  if MaxCap c <? InitCap c then Ret (Err errInvalidCapacity)
  else
    let c := fst (Merge defaultConfig c) in
    match BlockingDeque.newBlockingDeque (MaxCap c) (int_sub (MaxCap c) (InitCap c)) with
    | Panic => Panic
    | Block => Block
    | Ret q =>
        let p := {| address := address; conns := Some q;
                    factory := match factory with
                               | Some f => f
                               | None => defaultFactory
                               end;
                    config := c |} in
        let s0 := {| pool := p; heap := []; trace := []; ticks := 0 |} in
        match init_conns (Z.to_nat (InitCap c)) s0 with
        | (Ret None, s) => Ret (Ok s)
        | (Ret (Some e), _) => Ret (Err e)
        | (Panic, _) => Panic
        | (Block, _) => Block
        end
    end.

(** What a client and the background sweep can do to a pool. *)
Inductive op : Type :=
| OpGet
| OpPut (c : wptr)
| OpClose (c : wptr)
| OpSweep
| OpMarkUnusable (c : wptr)
| OpWrite (c : wptr) (io_ok : bool)
| OpRead (c : wptr) (io_ok : bool).

Definition run (o : op) (s : state) : state :=
  match o with
  | OpGet => snd (Get s)
  | OpPut c => snd (put c s)
  | OpClose c => snd (Close c s)
  | OpSweep => snd (sweep s)
  | OpMarkUnusable c => snd (MarkUnusable c s)
  | OpWrite c b => snd (Write c b s)
  | OpRead c b => snd (Read c b s)
  end.

(** States of a pool: right after a successful construction, and after
    any operation on a reachable state (the state a panic leaves behind
    included). *)
Inductive reachable : state -> Prop :=
| reach_init (address : string) (c : Config) (factory : option Factory) (s : state) :
    NewBlockingPool address c factory = Ret (Ok s) -> reachable s
| reach_step (o : op) (s : state) :
    reachable s -> reachable (run o s).

Fixpoint run_all (os : list op) (s : state) : state :=
  match os with
  | [] => s
  | o :: os' => run_all os' (run o s)
  end.
End Pool.

(** The handles stored in a deque, nil markers left out. *)
Definition is_real (c : wptr) : bool :=
  match c with
  | Nil => false
  | Ptr _ => true
  end.

Definition real_handles (items : list wptr) : nat :=
  length (List.filter is_real items).

Definition is_dial (e : event) : bool :=
  match e with
  | EvDial _ _ => true
  | EvClose _ => false
  end.

(** How often the factory was invoked. *)
Definition dials (t : list event) : nat :=
  length (List.filter is_dial t).

Definition is_close_of (c : conn) (e : event) : bool :=
  match e with
  | EvClose c' => Nat.eqb c c'
  | EvDial _ _ => false
  end.

(** How often [Close] was called on the transport [c]. *)
Definition closes (c : conn) (t : list event) : nat :=
  length (List.filter (is_close_of c) t).

(** ** A concrete world for the examples *)

(** One clock reading per second. *)
Definition clock0 (n : nat) : Z := Z.of_nat n * Second.

(** A factory that always connects; the transport of the [n]-th dial is [n]. *)
Definition dial_fresh : Factory := fun _ _ t => DialOk (dials t).

(** A caller's configuration with the timeouts left unset. *)
Definition caller_config (cm : CacheMethod) (initCap maxCap : Z) : Config :=
  mkConfig cm initCap maxCap 0 0 0 0.

(** ** Predicates and sample states used by the statements *)

(** A computation that leaves the pool record alone, whatever it returns. *)
Definition keeps_pool {A : Type} (m : M A) : Prop :=
  forall s, pool (snd (m s)) = pool s.

(** The state after a handle was found idle: marked, transport closed,
    one clock reading taken. *)
Definition expire (a : nat) (h : WrappedConn) (s : state) : state :=
  log (EvClose (Conn h)) (upd_heap (fun hp => <[a := mark h]> hp) (tick s)).

(** The queue after a release under the pool's policy. *)
Definition released (p : blockingPool) (q : BlockingDeque.blockingDeque wptr) (c : wptr)
    : BlockingDeque.blockingDeque wptr :=
  if cacheMethod (config p) =? FIFO
  then fst (BlockingDeque.append q c)
  else fst (BlockingDeque.prepend q c).

(** One operation of the bounded queue. *)
Inductive q_step {A : Type} : BlockingDeque.blockingDeque A -> BlockingDeque.blockingDeque A -> Prop :=
| qs_pop (q : BlockingDeque.blockingDeque A) (timeout : Z) :
    q_step q (fst (BlockingDeque.pop q timeout))
| qs_append (q : BlockingDeque.blockingDeque A) (item : A) :
    q_step q (fst (BlockingDeque.append q item))
| qs_prepend (q : BlockingDeque.blockingDeque A) (item : A) :
    q_step q (fst (BlockingDeque.prepend q item)).

(** A method of the pool leaves the pool record alone or performs one
    operation on its queue. *)
Definition pool_step (p p' : blockingPool) : Prop :=
  p' = p \/
  exists q q', conns p = Some q /\ q_step q q' /\ p' = with_conns (Some q') p.

(** The pool is open, its queue is well formed, the gate has the configured
    capacity, and the configuration carries the default initial capacity
    and policy. *)
Definition pool_ok (p : blockingPool) : Prop :=
  exists q,
    conns p = Some q /\ BlockingDeque.wf q /\
    BlockingDeque.gate_cap q = MaxCap (config p) /\
    InitCap (config p) = 0 /\ cacheMethod (config p) = FIFO.

(** The state [NewBlockingPool] returns for the caller's configuration [c],
    a factory always given. *)
Definition fresh_pool (address : string) (c : Config) (f : Factory) : state :=
  let c' := fst (Merge defaultConfig c) in
  {| pool := {| address := address;
                conns := Some {| BlockingDeque.dq := Deque.newDeque (MaxCap c');
                                 BlockingDeque.gate_cap := MaxCap c';
                                 BlockingDeque.gate_len := Z.to_nat (MaxCap c') |};
                factory := f;
                config := c' |};
     heap := []; trace := []; ticks := 0 |}.

(** A queue of capacity 2 holding one token and no element. *)
Definition queue_2_1 : BlockingDeque.blockingDeque nat :=
  {| BlockingDeque.dq := Deque.newDeque 2;
     BlockingDeque.gate_cap := 2;
     BlockingDeque.gate_len := 1 |}.

(** From [s] to [s']: the pool record is the same, every handle is still
    allocated with its transport and its last access, a set unusable flag
    stays set, and no recorded close is lost. *)
Definition grows (s s' : state) : Prop :=
  pool s' = pool s /\
  (forall b hb, heap s !! b = Some hb ->
     exists hb', heap s' !! b = Some hb' /\ Conn hb' = Conn hb /\
                 lastAccess hb' = lastAccess hb /\
                 (unusable hb = true -> unusable hb' = true)) /\
  (forall c, (closes c (trace s) <= closes c (trace s'))%nat).

(** Capacity 2 and an idle timeout of one second. *)
Definition idle_config : Config := mkConfig FIFO 0 2 Second 0 0 0.

(** The pool of [idle_config] after two acquires and the return of both
    handles, and its queue. *)
Definition two_returned : state :=
  run_all clock0 [OpGet; OpGet; OpClose (Ptr 0); OpClose (Ptr 1)]
    (fresh_pool "db:5432" idle_config dial_fresh).

Definition two_returned_queue : BlockingDeque.blockingDeque wptr :=
  {| BlockingDeque.dq := {| Deque.container := [Ptr 0; Ptr 1]; Deque.capacity := 2 |};
     BlockingDeque.gate_cap := 2;
     BlockingDeque.gate_len := 2 |}.

(** The queue after a token was added and [c] pushed at the tail. *)
Definition pushed_tail (q : BlockingDeque.blockingDeque wptr) (c : wptr)
    : BlockingDeque.blockingDeque wptr :=
  {| BlockingDeque.dq :=
       {| Deque.container := Deque.container (BlockingDeque.dq q) ++ [c];
          Deque.capacity := Deque.capacity (BlockingDeque.dq q) |};
     BlockingDeque.gate_cap := BlockingDeque.gate_cap q;
     BlockingDeque.gate_len := S (BlockingDeque.gate_len q) |}.

(** A pool of capacity 1 whose only handle was marked unusable and closed:
    the gate is full again and the deque holds the nil marker. *)
Definition marker_queued : state :=
  run_all clock0 [OpGet; OpMarkUnusable (Ptr 0); OpClose (Ptr 0)]
    (fresh_pool "db:5432" (caller_config FIFO 0 1) dial_fresh).

(** The caller asks for one eager connection out of two. *)
Definition eager_config : Config := caller_config FIFO 1 2.

(** The caller asks for [FILO], the policy whose release goes to the head. *)
Definition queue_order_config : Config := caller_config FILO 0 2.

(** Two handles [A] = [Ptr 0] and [B] = [Ptr 1] acquired, then released in
    that order. *)
Definition released_A_then_B (s : state) : state :=
  run_all clock0 [OpGet; OpGet; OpPut (Ptr 0); OpPut (Ptr 1)] s.

(** A pool of capacity 1 whose handle was acquired and returned. *)
Definition returned_once : state :=
  run_all clock0 [OpGet; OpClose (Ptr 0)]
    (fresh_pool "db:5432" (caller_config FIFO 0 1) dial_fresh).

(** Two handles out of a pool of capacity 2, which is then resized to 1;
    the first handle is released. *)
Definition shrunk_one_back : state :=
  snd (put (Ptr 0)
         (snd (Update (caller_config FIFO 0 1)
                 (run_all clock0 [OpGet; OpGet]
                    (fresh_pool "db:5432" (caller_config FIFO 0 2) dial_fresh))))).

(** ** Further predicates and sample values *)

(** A [walkFn] that notes every element it is called on. *)
Definition record_visit {A : Type} (x : A) (seen : list A) : res unit * list A :=
  (Ret tt, seen ++ [x]).

(** A [walkFn] that panics on the elements that [bad] selects and notes the
    others. *)
Definition visit_unless {A : Type} (bad : A -> bool) (x : A) (seen : list A)
    : res unit * list A :=
  if bad x then (Panic, seen) else (Ret tt, seen ++ [x]).

(** A factory that never connects. *)
Definition dial_refused : Factory := fun _ _ _ => DialErr "connection refused".

(** The five tunables of a configuration are positive. *)
Definition tunables_positive (c : Config) : Prop :=
  0 < MaxCap c /\ 0 < DialTimeout c /\ 0 < IOTimeout c /\
  0 < WaitTimeout c /\ 0 < IdleTimeout c.

(** One test of [Merge]: the incoming value is positive and differs. *)
Definition wants (get : Config -> Z) (c new : Config) : bool :=
  (0 <? get new) && negb (get new =? get c).

(** A computation whose final state is related to its initial state by [R],
    whatever it returns. *)
Definition respects (R : state -> state -> Prop) {A : Type} (m : M A) : Prop :=
  forall s, R s (snd (m s)).

(** The factory was not invoked between [s] and [s']. *)
Definition same_dials (s s' : state) : Prop :=
  dials (trace s') = dials (trace s).

(** No transport was closed between [s] and [s']. *)
Definition same_closes (s s' : state) : Prop :=
  forall c, closes c (trace s') = closes c (trace s).

(** Every handle of [s] is still allocated in [s'], wraps the same
    transport, and is still unusable if it was. *)
Definition heap_mono (s s' : state) : Prop :=
  forall b hb, heap s !! b = Some hb ->
    exists hb', heap s' !! b = Some hb' /\ Conn hb' = Conn hb /\
                (unusable hb = true -> unusable hb' = true).

(** States of a pool whose capacity is also changed by [Update]; the
    capacities handed in are Go integers. *)
Inductive reachable_upd (clock : nat -> Z) (defaultFactory : Factory) : state -> Prop :=
| reach_upd_init (address : string) (c : Config) (factory : option Factory) (s : state) :
    is_int (MaxCap c) ->
    NewBlockingPool clock defaultFactory address c factory = Ret (Ok s) ->
    reachable_upd clock defaultFactory s
| reach_upd_step (o : op) (s : state) :
    reachable_upd clock defaultFactory s ->
    reachable_upd clock defaultFactory (run clock o s)
| reach_upd_update (c : Config) (s : state) :
    is_int (MaxCap c) ->
    reachable_upd clock defaultFactory s ->
    reachable_upd clock defaultFactory (snd (Update c s)).

(** The queue that [Update] installs when the capacity changes from
    [oldCap] to [newCap]. *)
Definition resized_queue (oldCap newCap : Z) : BlockingDeque.blockingDeque wptr :=
  {| BlockingDeque.dq := Deque.newDeque newCap;
     BlockingDeque.gate_cap := newCap;
     BlockingDeque.gate_len := Z.to_nat (newCap - oldCap) |}.

(** A pool of capacity 2 with one handle queued, then resized to 3. *)
Definition one_queued : state :=
  run_all clock0 [OpGet; OpClose (Ptr 0)]
    (fresh_pool "db:5432" (caller_config FIFO 0 2) dial_fresh).

Definition grown : state := snd (Update (caller_config FIFO 0 3) one_queued).

(** A pool of capacity 1 whose factory never connects. *)
Definition unreachable_server : state :=
  fresh_pool "db:5432" (caller_config FIFO 0 1) dial_refused.

(** [one_queued] with two further handles checked out of it: [Ptr 0] is
    queued, [Ptr 1] is with a client. *)
Definition one_out : state :=
  run_all clock0 [OpGet; OpGet; OpClose (Ptr 0)]
    (fresh_pool "db:5432" idle_config dial_fresh).

(** A pool record whose queue pointer is nil, with one handle allocated. *)
Definition closed_pool : state :=
  upd_pool (with_conns None) (snd (Get clock0 (fresh_pool "db:5432" idle_config dial_fresh))).

(** ** Lists *)

Lemma unsnoc_snoc {A : Type} (l : list A) (x : A) : unsnoc (l ++ [x]) = Some (l, x).
Proof.
  induction l as [|y l IH]; simpl; [reflexivity|].
  rewrite IH. reflexivity.
Qed.

Lemma unsnoc_None {A : Type} (l : list A) : unsnoc l = None -> l = [].
Proof.
  destruct l as [|x l]; simpl; [reflexivity|].
  destruct (unsnoc l) as [[i y]|]; discriminate.
Qed.

Lemma unsnoc_Some {A : Type} (l init : list A) (x : A) :
  unsnoc l = Some (init, x) -> l = init ++ [x].
Proof.
  revert init x. induction l as [|y l IH]; intros init x; simpl; [discriminate|].
  destruct (unsnoc l) as [[i z]|] eqn:E.
  - intros [= <- <-]. simpl. f_equal. apply IH. reflexivity.
  - intros [= <- <-]. apply unsnoc_None in E. subst l. reflexivity.
Qed.

Lemma real_handles_le_length (items : list wptr) :
  (real_handles items <= length items)%nat.
Proof. unfold real_handles. apply List.filter_length_le. Qed.

(** ** Integers *)

Lemma wrap64_id (z : Z) : is_int z -> wrap64 z = z.
Proof.
  unfold is_int, min_int, max_int, wrap64. intros H.
  rewrite Z.mod_small; lia.
Qed.

(** ** Merge *)

Lemma Merge_InitCap (c new : Config) : InitCap (fst (Merge c new)) = InitCap c.
Proof.
  unfold Merge, adopt. destruct c, new; simpl.
  repeat match goal with |- context [if ?b then _ else _] => destruct b; simpl end;
    reflexivity.
Qed.

Lemma Merge_cacheMethod (c new : Config) :
  cacheMethod (fst (Merge c new)) = cacheMethod c.
Proof.
  unfold Merge, adopt. destruct c, new; simpl.
  repeat match goal with |- context [if ?b then _ else _] => destruct b; simpl end;
    reflexivity.
Qed.

(** The answer of [Merge] reads five fields of the incoming configuration. *)
Lemma Merge_reads_five (c new : Config) (cm : CacheMethod) (ic : Z) :
  Merge c (mkConfig cm ic (MaxCap new) (IdleTimeout new) (WaitTimeout new)
             (IOTimeout new) (DialTimeout new)) = Merge c new.
Proof. destruct new; reflexivity. Qed.

Lemma Merge_MaxCap (c new : Config) :
  MaxCap (fst (Merge c new)) = if 0 <? MaxCap new then MaxCap new else MaxCap c.
Proof.
  unfold Merge, adopt. destruct c as [cm ic mc it wt io dt], new as [cm' ic' mc' it' wt' io' dt']; simpl.
  destruct (0 <? mc') eqn:Hpos; simpl.
  - destruct (mc' =? mc) eqn:Heq; simpl;
      repeat match goal with |- context [if ?b then _ else _] => destruct b; simpl end;
      try reflexivity; apply Z.eqb_eq in Heq; congruence.
  - repeat match goal with |- context [if ?b then _ else _] => destruct b; simpl end;
      reflexivity.
Qed.

Lemma Merge_same_five (c new : Config) :
  MaxCap new = MaxCap c -> DialTimeout new = DialTimeout c ->
  IOTimeout new = IOTimeout c -> WaitTimeout new = WaitTimeout c ->
  IdleTimeout new = IdleTimeout c ->
  Merge c new = (c, false).
Proof.
  destruct c, new; simpl; intros -> -> -> -> ->.
  unfold Merge, adopt; cbn.
  repeat (rewrite Z.eqb_refl, andb_false_r; cbn). reflexivity.
Qed.

(** ** The gate *)

Lemma fill_ok {A : Type} (n : nat) (q : BlockingDeque.blockingDeque A) :
  Z.of_nat (BlockingDeque.gate_len q) + Z.of_nat n <= BlockingDeque.gate_cap q ->
  BlockingDeque.fill n q =
    Ret {| BlockingDeque.dq := BlockingDeque.dq q;
           BlockingDeque.gate_cap := BlockingDeque.gate_cap q;
           BlockingDeque.gate_len := (BlockingDeque.gate_len q + n)%nat |}.
Proof.
  revert q. induction n as [|n IH]; intros q H; simpl.
  - rewrite Nat.add_0_r. destruct q; reflexivity.
  - unfold BlockingDeque.send, BlockingDeque.gate_full.
    destruct (Z.leb_spec (BlockingDeque.gate_cap q) (Z.of_nat (BlockingDeque.gate_len q)))
      as [Hge|Hlt]; [lia|].
    rewrite IH; simpl; [|lia]. do 2 f_equal. lia.
Qed.

Lemma fill_Ret {A : Type} (n : nat) (q q' : BlockingDeque.blockingDeque A) :
  BlockingDeque.fill n q = Ret q' ->
  Z.of_nat (BlockingDeque.gate_len q) + Z.of_nat n <= BlockingDeque.gate_cap q \/ n = O.
Proof.
  revert q. induction n as [|n IH]; intros q; simpl; [intros _; right; reflexivity|].
  unfold BlockingDeque.send, BlockingDeque.gate_full.
  destruct (Z.leb_spec (BlockingDeque.gate_cap q) (Z.of_nat (BlockingDeque.gate_len q)))
    as [Hge|Hlt]; [discriminate|].
  intros H. apply IH in H. simpl in H. left. lia.
Qed.

Lemma newBlockingDeque_ok {A : Type} (maxCap nilCap : Z) :
  0 <= maxCap -> nilCap <= maxCap ->
  BlockingDeque.newBlockingDeque (A := A) maxCap nilCap =
    Ret {| BlockingDeque.dq := Deque.newDeque maxCap;
           BlockingDeque.gate_cap := maxCap;
           BlockingDeque.gate_len := Z.to_nat nilCap |}.
Proof.
  intros H0 H1. unfold BlockingDeque.newBlockingDeque.
  destruct (Z.ltb_spec maxCap 0) as [Hneg|Hpos]; [lia|].
  rewrite fill_ok; simpl; [reflexivity|lia].
Qed.

Lemma newBlockingDeque_Ret {A : Type} (maxCap nilCap : Z) (q : BlockingDeque.blockingDeque A) :
  BlockingDeque.newBlockingDeque maxCap nilCap = Ret q ->
  0 <= maxCap /\ nilCap <= maxCap /\
  q = {| BlockingDeque.dq := Deque.newDeque maxCap;
         BlockingDeque.gate_cap := maxCap;
         BlockingDeque.gate_len := Z.to_nat nilCap |}.
Proof.
  unfold BlockingDeque.newBlockingDeque.
  destruct (Z.ltb_spec maxCap 0) as [Hneg|Hpos]; [discriminate|]. intros Hf.
  assert (Hle : nilCap <= maxCap).
  { apply fill_Ret in Hf. simpl in Hf. lia. }
  split; [assumption|]. split; [assumption|].
  pose proof (newBlockingDeque_ok (A := A) maxCap nilCap Hpos Hle) as Hok.
  unfold BlockingDeque.newBlockingDeque in Hok.
  destruct (Z.ltb_spec maxCap 0) as [Hneg'|_]; [lia|]. congruence.
Qed.

Lemma wf_new {A : Type} (maxCap nilCap : Z) (q : BlockingDeque.blockingDeque A) :
  BlockingDeque.newBlockingDeque maxCap nilCap = Ret q -> BlockingDeque.wf q.
Proof.
  intros H. apply newBlockingDeque_Ret in H as (H0 & H1 & ->).
  unfold BlockingDeque.wf; simpl. repeat split; lia.
Qed.

Lemma wf_pop {A : Type} (q : BlockingDeque.blockingDeque A) (timeout : Z) :
  BlockingDeque.wf q -> BlockingDeque.wf (fst (BlockingDeque.pop q timeout)).
Proof.
  intros (Hc & H0 & Hl & Hg). unfold BlockingDeque.pop.
  destruct (BlockingDeque.gate_len q) as [|n] eqn:En; simpl.
  - unfold BlockingDeque.wf. rewrite En. repeat split; assumption.
  - unfold Deque.pop. destruct (unsnoc (Deque.container (BlockingDeque.dq q))) as [[i x]|] eqn:Eu; simpl.
    + apply unsnoc_Some in Eu. rewrite Eu, length_app in Hl. simpl in Hl.
      unfold BlockingDeque.wf; simpl. repeat split; try assumption; lia.
    + apply unsnoc_None in Eu. rewrite Eu in Hl.
      unfold BlockingDeque.wf; simpl. rewrite Eu. simpl. repeat split; try assumption; lia.
Qed.

(** With the invariant, a push behind an open gate always finds room in
    the deque. *)
Lemma wf_has_room {A : Type} (q : BlockingDeque.blockingDeque A) :
  BlockingDeque.wf q -> BlockingDeque.gate_full q = false ->
  Deque.has_room (BlockingDeque.dq q) = true.
Proof.
  intros (Hc & H0 & Hl & Hg). unfold BlockingDeque.gate_full, Deque.has_room.
  intros Hf. apply Z.leb_gt in Hf. rewrite Hc.
  apply orb_true_iff. right. apply Z.ltb_lt. lia.
Qed.

Lemma wf_append {A : Type} (q : BlockingDeque.blockingDeque A) (item : A) :
  BlockingDeque.wf q -> BlockingDeque.wf (fst (BlockingDeque.append q item)).
Proof.
  intros Hwf. unfold BlockingDeque.append.
  destruct (BlockingDeque.gate_full q) eqn:Hf; simpl; [assumption|].
  unfold Deque.append. rewrite (wf_has_room q Hwf Hf). simpl.
  destruct Hwf as (Hc & H0 & Hl & Hg).
  unfold BlockingDeque.gate_full in Hf. apply Z.leb_gt in Hf.
  unfold BlockingDeque.wf; simpl. rewrite length_app. simpl.
  repeat split; try assumption; lia.
Qed.

Lemma wf_prepend {A : Type} (q : BlockingDeque.blockingDeque A) (item : A) :
  BlockingDeque.wf q -> BlockingDeque.wf (fst (BlockingDeque.prepend q item)).
Proof.
  intros Hwf. unfold BlockingDeque.prepend.
  destruct (BlockingDeque.gate_full q) eqn:Hf; simpl; [assumption|].
  unfold Deque.prepend. rewrite (wf_has_room q Hwf Hf). simpl.
  destruct Hwf as (Hc & H0 & Hl & Hg).
  unfold BlockingDeque.gate_full in Hf. apply Z.leb_gt in Hf.
  unfold BlockingDeque.wf; simpl.
  repeat split; try assumption; lia.
Qed.

Lemma reachable_wf {A : Type} (q : BlockingDeque.blockingDeque A) :
  BlockingDeque.reachable q -> BlockingDeque.wf q.
Proof.
  induction 1 as [maxCap nilCap q H|q t _ IH|q i _ IH|q i _ IH].
  - exact (wf_new maxCap nilCap q H).
  - apply wf_pop, IH.
  - apply wf_append, IH.
  - apply wf_prepend, IH.
Qed.

Lemma gate_cap_pop {A : Type} (q : BlockingDeque.blockingDeque A) (timeout : Z) :
  BlockingDeque.gate_cap (fst (BlockingDeque.pop q timeout)) = BlockingDeque.gate_cap q.
Proof.
  unfold BlockingDeque.pop. destruct (BlockingDeque.gate_len q); [reflexivity|].
  destruct (Deque.pop (BlockingDeque.dq q)); reflexivity.
Qed.

Lemma gate_cap_append {A : Type} (q : BlockingDeque.blockingDeque A) (item : A) :
  BlockingDeque.gate_cap (fst (BlockingDeque.append q item)) = BlockingDeque.gate_cap q.
Proof. unfold BlockingDeque.append. destruct (BlockingDeque.gate_full q); reflexivity. Qed.

Lemma gate_cap_prepend {A : Type} (q : BlockingDeque.blockingDeque A) (item : A) :
  BlockingDeque.gate_cap (fst (BlockingDeque.prepend q item)) = BlockingDeque.gate_cap q.
Proof. unfold BlockingDeque.prepend. destruct (BlockingDeque.gate_full q); reflexivity. Qed.

(** ** What the methods do to the state *)

Lemma keeps_pool_ret {A : Type} (a : A) : keeps_pool (ret a).
Proof. intros s. reflexivity. Qed.

Lemma keeps_pool_panic {A : Type} : keeps_pool (@panic A).
Proof. intros s. reflexivity. Qed.

Lemma keeps_pool_bind {A B : Type} (m : M A) (k : A -> M B) :
  keeps_pool m -> (forall a, keeps_pool (k a)) -> keeps_pool (bind m k).
Proof.
  intros Hm Hk s. unfold bind. specialize (Hm s).
  destruct (m s) as [[a| |] s'] eqn:E; simpl in *; [|assumption..].
  rewrite Hk. assumption.
Qed.

Lemma keeps_pool_load (c : wptr) : keeps_pool (load c).
Proof. intros s. unfold load. destruct c as [|a]; [reflexivity|]. destruct (heap s !! a); reflexivity. Qed.

Lemma keeps_pool_store (a : nat) (h : WrappedConn) : keeps_pool (store a h).
Proof. intros s. reflexivity. Qed.

Lemma keeps_pool_alloc (h : WrappedConn) : keeps_pool (alloc h).
Proof. intros s. reflexivity. Qed.

Lemma keeps_pool_emit (e : event) : keeps_pool (emit e).
Proof. intros s. reflexivity. Qed.

Lemma keeps_pool_get_pool : keeps_pool get_pool.
Proof. intros s. reflexivity. Qed.

Create HintDb frame.
#[export] Hint Resolve keeps_pool_ret keeps_pool_panic keeps_pool_load keeps_pool_store
  keeps_pool_alloc keeps_pool_emit keeps_pool_get_pool : frame.

Ltac frame :=
  repeat first
    [ progress auto with frame
    | apply keeps_pool_bind
    | match goal with
      | |- forall _, keeps_pool _ => intro
      | |- keeps_pool (fun s' => ?m s') => change (keeps_pool m)
      | |- keeps_pool (if ?b then _ else _) => destruct b
      | |- keeps_pool (match ?x with _ => _ end) => destruct x
      end ].

Lemma keeps_pool_set_unusable (c : wptr) : keeps_pool (set_unusable c).
Proof. unfold set_unusable. frame. Qed.

Lemma keeps_pool_set_lastAccess (c : wptr) (t : Z) : keeps_pool (set_lastAccess c t).
Proof. unfold set_lastAccess. frame. Qed.

#[export] Hint Resolve keeps_pool_set_unusable keeps_pool_set_lastAccess : frame.

Section PoolFacts.
Variable clock : nat -> Z.
Variable defaultFactory : Factory.

Lemma keeps_pool_now : keeps_pool (now clock).
Proof. intros s. reflexivity. Qed.

Lemma keeps_pool_dial : keeps_pool dial.
Proof. intros s. reflexivity. Qed.

Hint Resolve keeps_pool_now keeps_pool_dial : frame.

Lemma keeps_pool_destroy (c : wptr) : keeps_pool (destroy c).
Proof. unfold destroy. frame. Qed.

Hint Resolve keeps_pool_destroy : frame.

Lemma keeps_pool_checkIdle (c : wptr) : keeps_pool (checkIdle clock c).
Proof. unfold checkIdle. frame. Qed.

Lemma keeps_pool_MarkUnusable (c : wptr) : keeps_pool (MarkUnusable c).
Proof. unfold MarkUnusable. frame. Qed.

Lemma keeps_pool_Write (c : wptr) (io_ok : bool) : keeps_pool (Write clock c io_ok).
Proof. unfold Write. frame. Qed.

Lemma keeps_pool_Read (c : wptr) (io_ok : bool) : keeps_pool (Read clock c io_ok).
Proof. unfold Read. frame. Qed.

Lemma keeps_pool_NewWrapConn : keeps_pool (NewWrapConn clock).
Proof. unfold NewWrapConn. frame. Qed.

Hint Resolve keeps_pool_checkIdle keeps_pool_NewWrapConn : frame.

Lemma keeps_pool_walk_items (items : list wptr) :
  keeps_pool (Deque.walk_items (idle_visit clock) items).
Proof.
  induction items as [|x rest IH]; intros s; simpl; [reflexivity|].
  pose proof (keeps_pool_checkIdle x s) as Hx. unfold idle_visit, bind.
  destruct (checkIdle clock x s) as [[b| |] s1]; simpl in *; [|assumption..].
  rewrite IH. assumption.
Qed.

(** The sweep leaves the pool record, hence the deque and the gate, as
    they were. *)
Lemma keeps_pool_sweep : keeps_pool (sweep clock).
Proof.
  intros s. unfold sweep, bind, get_pool; simpl.
  destruct (conns (pool s)) as [q|]; [|reflexivity].
  apply keeps_pool_walk_items.
Qed.

(** *** Handles *)

Lemma load_Ptr (s : state) (a : nat) (h : WrappedConn) :
  heap s !! a = Some h -> load (Ptr a) s = (Ret h, s).
Proof. intros H. unfold load. rewrite H. reflexivity. Qed.

Lemma destroy_Ptr (s : state) (a : nat) (h : WrappedConn) :
  heap s !! a = Some h -> destroy (Ptr a) s = (Ret tt, log (EvClose (Conn h)) s).
Proof. intros H. unfold destroy, bind. rewrite (load_Ptr s a h H). reflexivity. Qed.

Lemma set_unusable_Ptr (s : state) (a : nat) (h : WrappedConn) :
  heap s !! a = Some h ->
  set_unusable (Ptr a) s = (Ret tt, upd_heap (fun hp => <[a := mark h]> hp) s).
Proof. intros H. unfold set_unusable, bind. rewrite (load_Ptr s a h H). reflexivity. Qed.

Lemma checkIdle_Ptr (s : state) (a : nat) (h : WrappedConn) :
  heap s !! a = Some h ->
  checkIdle clock (Ptr a) s =
    if IdleTimeout (config (pool s)) <? time_since (clock (ticks s)) (lastAccess h)
    then (Ret false, expire a h s)
    else (Ret true, tick s).
Proof.
  intros H. unfold checkIdle, bind. rewrite (load_Ptr s a h H).
  unfold now, get_pool; simpl.
  destruct (IdleTimeout (config (pool s)) <? time_since (clock (ticks s)) (lastAccess h));
    [|reflexivity].
  rewrite (set_unusable_Ptr (tick s) a h H).
  assert (Hm : heap (upd_heap (fun hp => <[a := mark h]> hp) (tick s)) !! a = Some (mark h)).
  { simpl. apply list_lookup_insert_eq. apply lookup_lt_Some in H. exact H. }
  rewrite (destroy_Ptr _ a (mark h) Hm). reflexivity.
Qed.

(** *** The pool methods on an open pool *)

Lemma NewWrapConn_eq (s : state) :
  NewWrapConn clock s =
    let p := pool s in
    let s1 := log (EvDial (address p) (DialTimeout (config p))) s in
    match factory p (address p) (DialTimeout (config p)) (trace s) with
    | DialErr msg => (Ret (Err (errDial msg)), s1)
    | DialOk c =>
        (Ret (Ok (Ptr (length (heap s)))),
         upd_heap (fun hp => hp ++ [ {| Conn := c; unusable := false;
                                        lastAccess := clock (ticks s) |} ]) (tick s1))
    end.
Proof.
  unfold NewWrapConn, bind, dial; simpl.
  destruct (factory (pool s) (address (pool s)) (DialTimeout (config (pool s))) (trace s));
    reflexivity.
Qed.

Lemma putBottom_open (s : state) (q : BlockingDeque.blockingDeque wptr) (c : wptr) :
  conns (pool s) = Some q ->
  putBottom c s =
    (Ret None, upd_pool (with_conns (Some (fst (BlockingDeque.append q c)))) s).
Proof. intros H. unfold putBottom, bind, get_pool; simpl. rewrite H. reflexivity. Qed.

Lemma putTop_open (s : state) (q : BlockingDeque.blockingDeque wptr) (c : wptr) :
  conns (pool s) = Some q ->
  putTop c s =
    (Ret None, upd_pool (with_conns (Some (fst (BlockingDeque.prepend q c)))) s).
Proof. intros H. unfold putTop, bind, get_pool; simpl. rewrite H. reflexivity. Qed.

Lemma put_open (s : state) (q : BlockingDeque.blockingDeque wptr) (c : wptr) :
  conns (pool s) = Some q ->
  put c s = (Ret None, upd_pool (with_conns (Some (released (pool s) q c))) s).
Proof.
  intros H. unfold put, released, bind, get_pool; simpl.
  destruct (cacheMethod (config (pool s)) =? FIFO).
  - apply putBottom_open, H.
  - apply putTop_open, H.
Qed.

Lemma Close_unusable (s : state) (q : BlockingDeque.blockingDeque wptr)
    (a : nat) (h : WrappedConn) :
  conns (pool s) = Some q -> heap s !! a = Some h -> unusable h = true ->
  Close (Ptr a) s =
    (Ret tt,
     upd_pool (with_conns (Some (fst (BlockingDeque.append q Nil))))
       (log (EvClose (Conn h)) s)).
Proof.
  intros Hq Ha Hu. unfold Close, bind. rewrite (load_Ptr s a h Ha), Hu.
  rewrite (destroy_Ptr s a h Ha).
  rewrite (putBottom_open (log (EvClose (Conn h)) s) q Nil Hq). reflexivity.
Qed.

Lemma Close_usable (s : state) (q : BlockingDeque.blockingDeque wptr)
    (a : nat) (h : WrappedConn) :
  conns (pool s) = Some q -> heap s !! a = Some h -> unusable h = false ->
  Close (Ptr a) s =
    (Ret tt, upd_pool (with_conns (Some (released (pool s) q (Ptr a)))) s).
Proof.
  intros Hq Ha Hu. unfold Close, bind. rewrite (load_Ptr s a h Ha), Hu.
  rewrite (put_open s q (Ptr a) Hq). reflexivity.
Qed.
End PoolFacts.

#[export] Hint Resolve keeps_pool_now keeps_pool_dial keeps_pool_destroy
  keeps_pool_checkIdle keeps_pool_NewWrapConn : frame.

(** ** The invariant of the pool *)

Lemma q_step_wf {A : Type} (q q' : BlockingDeque.blockingDeque A) :
  q_step q q' -> BlockingDeque.wf q -> BlockingDeque.wf q'.
Proof.
  destruct 1; intros Hwf; [apply wf_pop|apply wf_append|apply wf_prepend]; exact Hwf.
Qed.

Lemma q_step_gate_cap {A : Type} (q q' : BlockingDeque.blockingDeque A) :
  q_step q q' -> BlockingDeque.gate_cap q' = BlockingDeque.gate_cap q.
Proof.
  destruct 1; [apply gate_cap_pop|apply gate_cap_append|apply gate_cap_prepend].
Qed.

Lemma pool_step_ok (p p' : blockingPool) : pool_step p p' -> pool_ok p -> pool_ok p'.
Proof.
  intros [->|(q & q' & Hq & Hs & ->)] Hok; [exact Hok|].
  destruct Hok as (q0 & Hq0 & Hwf & Hcap & Hic & Hcm).
  assert (q0 = q) by congruence. subst q0.
  exists q'. simpl. repeat split; try assumption.
  - exact (proj1 (q_step_wf q q' Hs Hwf)).
  - exact (proj1 (proj2 (q_step_wf q q' Hs Hwf))).
  - exact (proj1 (proj2 (proj2 (q_step_wf q q' Hs Hwf)))).
  - exact (proj2 (proj2 (proj2 (q_step_wf q q' Hs Hwf)))).
  - rewrite (q_step_gate_cap q q' Hs). exact Hcap.
Qed.

Lemma pool_step_frame {A : Type} (m : M A) (p : blockingPool) (s : state) :
  keeps_pool m -> pool_step p (pool s) -> pool_step p (pool (snd (m s))).
Proof. intros Hm Hs. rewrite Hm. exact Hs. Qed.

Lemma load_state (c : wptr) (s : state) : snd (load c s) = s.
Proof. unfold load. destruct c as [|a]; [reflexivity|]. destruct (heap s !! a); reflexivity. Qed.

Section Invariant.
Variable clock : nat -> Z.
Variable defaultFactory : Factory.

Lemma Get_pool_step (s : state) : pool_step (pool s) (pool (snd (Get clock s))).
Proof.
  unfold Get, bind, get_pool; simpl.
  destruct (conns (pool s)) as [q|] eqn:Hq; [|left; reflexivity].
  destruct (BlockingDeque.pop q (WaitTimeout (config (pool s)))) as [q' [item|e]] eqn:Hp;
    simpl; [|left; reflexivity].
  right. exists q, q'. split; [exact Hq|]. split.
  - replace q' with (fst (BlockingDeque.pop q (WaitTimeout (config (pool s)))))
      by (rewrite Hp; reflexivity).
    constructor.
  - match goal with |- pool (snd (?k ?s1)) = _ =>
      assert (Hk : keeps_pool k) by frame end.
    rewrite Hk. reflexivity.
Qed.

Lemma putBottom_pool_step (c : wptr) (s : state) :
  pool_step (pool s) (pool (snd (putBottom c s))).
Proof.
  unfold putBottom, bind, get_pool; simpl.
  destruct (conns (pool s)) as [q|] eqn:Hq.
  - right. exists q, (fst (BlockingDeque.append q c)).
    split; [exact Hq|]. split; [constructor|reflexivity].
  - left. pose proof (keeps_pool_destroy c s) as Hd.
    destruct (destroy c s) as [[u| |] s1]; simpl in *; exact Hd.
Qed.

Lemma putTop_pool_step (c : wptr) (s : state) :
  pool_step (pool s) (pool (snd (putTop c s))).
Proof.
  unfold putTop, bind, get_pool; simpl.
  destruct (conns (pool s)) as [q|] eqn:Hq.
  - right. exists q, (fst (BlockingDeque.prepend q c)).
    split; [exact Hq|]. split; [constructor|reflexivity].
  - left. pose proof (keeps_pool_destroy c s) as Hd.
    destruct (destroy c s) as [[u| |] s1]; simpl in *; exact Hd.
Qed.

Lemma put_pool_step (c : wptr) (s : state) :
  pool_step (pool s) (pool (snd (put c s))).
Proof.
  unfold put, bind, get_pool; simpl.
  destruct (cacheMethod (config (pool s)) =? FIFO);
    [apply putBottom_pool_step|apply putTop_pool_step].
Qed.

Lemma Close_pool_step (c : wptr) (s : state) :
  pool_step (pool s) (pool (snd (Close c s))).
Proof.
  unfold Close, bind.
  pose proof (load_state c s) as Hl.
  destruct (load c s) as [[h| |] s0]; simpl in Hl; subst s0; simpl;
    [|left; reflexivity..].
  destruct (unusable h).
  - pose proof (keeps_pool_destroy c s) as Hd.
    destruct (destroy c s) as [[u| |] s1]; simpl in *; [|left; exact Hd..].
    pose proof (putBottom_pool_step Nil s1) as Hb. rewrite Hd in Hb.
    destruct (putBottom Nil s1) as [[e| |] s2]; simpl in *; exact Hb.
  - pose proof (put_pool_step c s) as Hp.
    destruct (put c s) as [[[e|]| |] s1]; simpl in *; try exact Hp.
    apply pool_step_frame; [apply keeps_pool_destroy|exact Hp].
Qed.

Lemma run_pool_step (o : op) (s : state) : pool_step (pool s) (pool (run clock o s)).
Proof.
  destruct o as [|c|c| |c|c b|c b]; simpl.
  - apply Get_pool_step.
  - apply put_pool_step.
  - apply Close_pool_step.
  - left. apply keeps_pool_sweep.
  - left. apply keeps_pool_MarkUnusable.
  - left. apply keeps_pool_Write.
  - left. apply keeps_pool_Read.
Qed.

(** What a successful construction returns. *)
Lemma NewBlockingPool_Ok (address : string) (c : Config) (factory : option Factory) (s : state) :
  NewBlockingPool clock defaultFactory address c factory = Ret (Ok s) ->
  let c' := fst (Merge defaultConfig c) in
  InitCap c <= MaxCap c /\ 0 <= MaxCap c' /\ int_sub (MaxCap c') 0 <= MaxCap c' /\
  s = {| pool := {| address := address;
                    conns := Some {| BlockingDeque.dq := Deque.newDeque (MaxCap c');
                                     BlockingDeque.gate_cap := MaxCap c';
                                     BlockingDeque.gate_len := Z.to_nat (int_sub (MaxCap c') 0) |};
                    factory := match factory with Some f => f | None => defaultFactory end;
                    config := c' |};
         heap := []; trace := []; ticks := 0 |}.
Proof.
  unfold NewBlockingPool.
  destruct (Z.ltb_spec (MaxCap c) (InitCap c)) as [Hlt|Hle]; [discriminate|].
  rewrite Merge_InitCap. change (InitCap defaultConfig) with 0.
  destruct (BlockingDeque.newBlockingDeque (MaxCap (fst (Merge defaultConfig c)))
              (int_sub (MaxCap (fst (Merge defaultConfig c))) 0)) as [q| |] eqn:Hq;
    [|discriminate..].
  simpl. intros [= <-].
  apply newBlockingDeque_Ret in Hq as (H0 & H1 & ->).
  repeat split; assumption.
Qed.

(** Construction succeeds for every configuration that passes the
    capacity check. *)
Lemma NewBlockingPool_total (address : string) (c : Config) (factory : option Factory) :
  InitCap c <= MaxCap c -> is_int (MaxCap c) ->
  exists s, NewBlockingPool clock defaultFactory address c factory = Ret (Ok s).
Proof.
  intros Hle Hint. unfold NewBlockingPool.
  destruct (Z.ltb_spec (MaxCap c) (InitCap c)) as [Hlt|_]; [lia|].
  rewrite Merge_InitCap. change (InitCap defaultConfig) with 0.
  assert (Hm : is_int (MaxCap (fst (Merge defaultConfig c))) /\
               0 < MaxCap (fst (Merge defaultConfig c))).
  { rewrite Merge_MaxCap. change (MaxCap defaultConfig) with 1.
    destruct (Z.ltb_spec 0 (MaxCap c)); [split; [assumption|lia]|].
    unfold is_int, min_int, max_int. lia. }
  destruct Hm as [Hm Hpos].
  unfold int_sub. rewrite Z.sub_0_r, (wrap64_id _ Hm).
  rewrite newBlockingDeque_ok by lia. simpl. eexists. reflexivity.
Qed.

Lemma NewBlockingPool_pool_ok (address : string) (c : Config) (factory : option Factory) (s : state) :
  NewBlockingPool clock defaultFactory address c factory = Ret (Ok s) -> pool_ok (pool s).
Proof.
  intros H. apply NewBlockingPool_Ok in H as (Hle & H0 & H1 & ->). simpl.
  eexists. split; [reflexivity|]. simpl.
  split; [|split; [reflexivity|split; [apply Merge_InitCap|apply Merge_cacheMethod]]].
  unfold BlockingDeque.wf; simpl. repeat split; lia.
Qed.

Lemma reachable_pool_ok (s : state) :
  reachable clock defaultFactory s -> pool_ok (pool s).
Proof.
  induction 1 as [address c factory s H|o s _ IH].
  - exact (NewBlockingPool_pool_ok address c factory s H).
  - exact (pool_step_ok _ _ (run_pool_step o s) IH).
Qed.
End Invariant.

(** ** Merge, the bounded queue and the bounds of the gate *)

(** C10: [Merge] returns the receiver's [InitCap] and [CacheMethod] whatever
    the incoming configuration holds, these two fields of the incoming
    configuration influence neither the result nor the changed flag (which
    stays false when only they differ), and every pool that
    [NewBlockingPool] builds has [InitCap] 0 and [CacheMethod] [FIFO]; it
    builds one whenever the capacity check passes. *)
Theorem C10_Merge_keeps_InitCap_and_CacheMethod
    (clock : nat -> Z) (defaultFactory : Factory)
    (cur new : Config) (address : string) (factory : option Factory) :
  (InitCap (fst (Merge cur new)) = InitCap cur /\
   cacheMethod (fst (Merge cur new)) = cacheMethod cur) /\
  (forall cm ic,
      Merge cur (mkConfig cm ic (MaxCap new) (IdleTimeout new) (WaitTimeout new)
                   (IOTimeout new) (DialTimeout new)) = Merge cur new) /\
  (forall cm ic,
      Merge cur (mkConfig cm ic (MaxCap cur) (IdleTimeout cur) (WaitTimeout cur)
                   (IOTimeout cur) (DialTimeout cur)) = (cur, false)) /\
  (forall s,
      NewBlockingPool clock defaultFactory address new factory = Ret (Ok s) ->
      InitCap (config (pool s)) = 0 /\ cacheMethod (config (pool s)) = FIFO /\
      heap s = [] /\ trace s = []) /\
  (InitCap new <= MaxCap new -> is_int (MaxCap new) ->
   exists s, NewBlockingPool clock defaultFactory address new factory = Ret (Ok s)).
Proof.
  split; [split; [apply Merge_InitCap|apply Merge_cacheMethod]|].
  split; [intros cm ic; apply Merge_reads_five|].
  split; [intros cm ic; apply Merge_same_five; reflexivity|].
  split.
  - intros s H. apply NewBlockingPool_Ok in H as (_ & _ & _ & ->). simpl.
    split; [apply Merge_InitCap|]. split; [apply Merge_cacheMethod|].
    split; reflexivity.
  - apply NewBlockingPool_total.
Qed.

Lemma C10_witness :
  exists s,
    NewBlockingPool clock0 dial_fresh "db:5432" (caller_config FILO 1 2) None = Ret (Ok s) /\
    InitCap (config (pool s)) = 0 /\ cacheMethod (config (pool s)) = FIFO.
Proof.
  destruct (C10_Merge_keeps_InitCap_and_CacheMethod clock0 dial_fresh defaultConfig
              (caller_config FILO 1 2) "db:5432" None) as (_ & _ & _ & Hcfg & Hex).
  destruct Hex as [s Hs].
  - simpl. lia.
  - unfold is_int, min_int, max_int. simpl. lia.
  - exists s. split; [exact Hs|].
    destruct (Hcfg s Hs) as (Hi & Hc & _). split; assumption.
Defined.

(** C5: on every bounded queue, [append] (release at the tail) and
    [prepend] (release at the head) return at once; with a full gate they
    return [errDequeFull] and the queue, deque included, is unchanged; with
    room in the gate they add one token and push the item at the tail,
    respectively at the head, of the deque. *)
Theorem C5_release_never_blocks {A : Type} (q : BlockingDeque.blockingDeque A) (item : A) :
  BlockingDeque.reachable q ->
  (BlockingDeque.gate_full q = true ->
   BlockingDeque.append q item = (q, Some errDequeFull) /\
   BlockingDeque.prepend q item = (q, Some errDequeFull)) /\
  (BlockingDeque.gate_full q = false ->
   BlockingDeque.append q item =
     ({| BlockingDeque.dq :=
           {| Deque.container := Deque.container (BlockingDeque.dq q) ++ [item];
              Deque.capacity := Deque.capacity (BlockingDeque.dq q) |};
         BlockingDeque.gate_cap := BlockingDeque.gate_cap q;
         BlockingDeque.gate_len := S (BlockingDeque.gate_len q) |}, None) /\
   BlockingDeque.prepend q item =
     ({| BlockingDeque.dq :=
           {| Deque.container := item :: Deque.container (BlockingDeque.dq q);
              Deque.capacity := Deque.capacity (BlockingDeque.dq q) |};
         BlockingDeque.gate_cap := BlockingDeque.gate_cap q;
         BlockingDeque.gate_len := S (BlockingDeque.gate_len q) |}, None)).
Proof.
  intros Hr. apply reachable_wf in Hr.
  unfold BlockingDeque.append, BlockingDeque.prepend. split; intros Hf; rewrite Hf.
  - split; reflexivity.
  - unfold Deque.append, Deque.prepend. rewrite (wf_has_room q Hr Hf). split; reflexivity.
Qed.

Lemma C5_witness :
  BlockingDeque.append queue_2_1 7%nat =
    ({| BlockingDeque.dq := {| Deque.container := [7%nat]; Deque.capacity := 2 |};
        BlockingDeque.gate_cap := 2; BlockingDeque.gate_len := 2 |}, None) /\
  BlockingDeque.prepend (fst (BlockingDeque.append queue_2_1 7%nat)) 8%nat =
    (fst (BlockingDeque.append queue_2_1 7%nat), Some errDequeFull).
Proof.
  split.
  - exact (proj1 (proj2 (C5_release_never_blocks queue_2_1 7%nat
                           (BlockingDeque.reach_new 2 1 queue_2_1 eq_refl)) eq_refl)).
  - exact (proj2 (proj1 (C5_release_never_blocks (fst (BlockingDeque.append queue_2_1 7%nat)) 8%nat
                           (BlockingDeque.reach_append queue_2_1 7%nat
                              (BlockingDeque.reach_new 2 1 queue_2_1 eq_refl))) eq_refl)).
Defined.

(** C3: in every state reached from a construction by acquires, releases,
    closes of handles and idle sweeps (marking a handle and reads and
    writes on it included), the gate holds at most [MaxCap] tokens and at
    least as many tokens as the deque stores real handles. *)
Theorem C3_gate_tokens_bounded (clock : nat -> Z) (defaultFactory : Factory) (s : state) :
  reachable clock defaultFactory s ->
  exists q,
    conns (pool s) = Some q /\
    Z.of_nat (BlockingDeque.gate_len q) <= MaxCap (config (pool s)) /\
    (real_handles (Deque.container (BlockingDeque.dq q)) <= BlockingDeque.gate_len q)%nat.
Proof.
  intros Hr. apply reachable_pool_ok in Hr.
  destruct Hr as (q & Hq & (Hc & H0 & Hl & Hg) & Hcap & _).
  exists q. split; [exact Hq|]. split; [lia|].
  pose proof (real_handles_le_length (Deque.container (BlockingDeque.dq q))). lia.
Qed.

Lemma C3_witness :
  exists q,
    conns (pool (run clock0 (OpClose (Ptr 0))
                   (run clock0 OpGet (fresh_pool "db:5432" (caller_config FIFO 0 2) dial_fresh))))
      = Some q /\
    Z.of_nat (BlockingDeque.gate_len q) <= 2 /\
    (real_handles (Deque.container (BlockingDeque.dq q)) <= BlockingDeque.gate_len q)%nat.
Proof.
  exact (C3_gate_tokens_bounded clock0 dial_fresh _
           (reach_step clock0 dial_fresh (OpClose (Ptr 0)) _
              (reach_step clock0 dial_fresh OpGet _
                 (reach_init clock0 dial_fresh "db:5432" (caller_config FIFO 0 2)
                    (Some dial_fresh) _ eq_refl)))).
Defined.

(** ** The idle sweep *)

Lemma grows_refl (s : state) : grows s s.
Proof.
  split; [reflexivity|]. split; [|intros c; lia].
  intros b hb H. exists hb. repeat split; [exact H|tauto].
Qed.

Lemma grows_trans (s1 s2 s3 : state) : grows s1 s2 -> grows s2 s3 -> grows s1 s3.
Proof.
  intros (Hp1 & Hh1 & Hc1) (Hp2 & Hh2 & Hc2).
  split; [congruence|]. split.
  - intros b hb H. destruct (Hh1 b hb H) as (h2 & H2 & Ec & El & Eu).
    destruct (Hh2 b h2 H2) as (h3 & H3 & Ec' & El' & Eu').
    exists h3. repeat split; [exact H3|congruence|congruence|tauto].
  - intros c. specialize (Hc1 c). specialize (Hc2 c). lia.
Qed.

Lemma closes_snoc (c : conn) (t : list event) (e : event) :
  closes c (t ++ [e]) = (closes c t + (if is_close_of c e then 1 else 0))%nat.
Proof.
  unfold closes. rewrite List.filter_app, length_app. simpl.
  destruct (is_close_of c e); reflexivity.
Qed.

Lemma grows_tick (s : state) : grows s (tick s).
Proof.
  split; [reflexivity|]. split; [|intros c; simpl; lia].
  intros b hb H. exists hb. repeat split; [exact H|tauto].
Qed.

Lemma grows_expire (s : state) (a : nat) (h : WrappedConn) :
  heap s !! a = Some h -> grows s (expire a h s).
Proof.
  intros Ha. split; [reflexivity|]. split.
  - intros b hb Hb. simpl. destruct (decide (a = b)) as [->|Hne].
    + assert (hb = h) by congruence. subst hb.
      exists (mark h). split; [|repeat split].
      apply list_lookup_insert_eq. apply lookup_lt_Some in Ha. exact Ha.
    + exists hb. rewrite list_lookup_insert_ne by exact Hne.
      repeat split; [exact Hb|tauto].
  - intros c. simpl. rewrite closes_snoc. lia.
Qed.

Section Sweep.
Variable clock : nat -> Z.

Lemma visit_Ptr (s : state) (a : nat) (h : WrappedConn) :
  heap s !! a = Some h ->
  idle_visit clock (Ptr a) s =
    (Ret tt,
     if IdleTimeout (config (pool s)) <? time_since (clock (ticks s)) (lastAccess h)
     then expire a h s else tick s).
Proof.
  intros H. unfold idle_visit, bind. rewrite (checkIdle_Ptr clock s a h H).
  destruct (IdleTimeout (config (pool s)) <? time_since (clock (ticks s)) (lastAccess h));
    reflexivity.
Qed.

Lemma visit_grows (x : wptr) (s : state) : grows s (snd (idle_visit clock x s)).
Proof.
  destruct x as [|a]; [apply grows_refl|].
  destruct (heap s !! a) as [h|] eqn:Ha.
  - rewrite (visit_Ptr s a h Ha); simpl.
    destruct (IdleTimeout (config (pool s)) <? time_since (clock (ticks s)) (lastAccess h));
      [apply grows_expire, Ha|apply grows_tick].
  - unfold idle_visit, checkIdle, bind, load. rewrite Ha. apply grows_refl.
Qed.

Lemma walk_grows (items : list wptr) (s : state) :
  grows s (snd (Deque.walk_items (idle_visit clock) items s)).
Proof.
  revert s. induction items as [|x rest IH]; intros s; simpl; [apply grows_refl|].
  pose proof (visit_grows x s) as Hx.
  destruct (idle_visit clock x s) as [[u| |] s1]; simpl in *; [|exact Hx..].
  exact (grows_trans _ _ _ Hx (IH s1)).
Qed.

(** A handle reached by the walk while it is idle beyond the timeout ends
    the walk marked unusable and with one more close of its transport. *)
Lemma walk_marks (i : nat) :
  forall (items : list wptr) (s : state) (a : nat) (h : WrappedConn),
    (forall j, (j < i)%nat ->
       exists b hb, items !! j = Some (Ptr b) /\ heap s !! b = Some hb) ->
    items !! i = Some (Ptr a) ->
    heap s !! a = Some h ->
    IdleTimeout (config (pool s)) < time_since (clock (ticks s + i)%nat) (lastAccess h) ->
    exists h',
      heap (snd (Deque.walk_items (idle_visit clock) items s)) !! a = Some h' /\
      unusable h' = true /\ Conn h' = Conn h /\
      (closes (Conn h) (trace s) <
       closes (Conn h) (trace (snd (Deque.walk_items (idle_visit clock) items s))))%nat.
Proof.
  induction i as [|i IH]; intros items s a h Hvis Hi Ha Hidle.
  - destruct items as [|x rest]; [discriminate|]. simpl in Hi. injection Hi as ->.
    simpl. rewrite (visit_Ptr s a h Ha).
    rewrite Nat.add_0_r in Hidle. apply Z.ltb_lt in Hidle. rewrite Hidle.
    destruct (walk_grows rest (expire a h s)) as (_ & Hh & Hc).
    assert (Hm : heap (expire a h s) !! a = Some (mark h)).
    { simpl. apply list_lookup_insert_eq. apply lookup_lt_Some in Ha. exact Ha. }
    destruct (Hh a (mark h) Hm) as (h' & H' & Ec & _ & Eu).
    exists h'. split; [exact H'|]. split; [apply Eu; reflexivity|]. split; [exact Ec|].
    specialize (Hc (Conn h)). simpl in Hc. rewrite closes_snoc in Hc.
    simpl in Hc. rewrite Nat.eqb_refl in Hc. lia.
  - destruct items as [|x rest]; [discriminate|]. simpl in Hi.
    destruct (Hvis O ltac:(lia)) as (b & hb & Hx & Hb). simpl in Hx. injection Hx as ->.
    simpl. rewrite (visit_Ptr s b hb Hb).
    set (s1 := if IdleTimeout (config (pool s)) <? time_since (clock (ticks s)) (lastAccess hb)
               then expire b hb s else tick s).
    assert (Hg : grows s s1).
    { pose proof (visit_grows (Ptr b) s) as G. rewrite (visit_Ptr s b hb Hb) in G. exact G. }
    assert (Ht : ticks s1 = S (ticks s)).
    { unfold s1. destruct (IdleTimeout _ <? _); reflexivity. }
    destruct Hg as (Hp & Hh & Hc).
    destruct (Hh a h Ha) as (h1 & H1 & Ec & El & _).
    destruct (IH rest s1 a h1) as (h' & H' & Eu & Ec' & Hlt).
    + intros j Hj. destruct (Hvis (S j) ltac:(lia)) as (b' & hb' & Hx' & Hb').
      simpl in Hx'. destruct (Hh b' hb' Hb') as (hb1 & Hb1 & _).
      exists b', hb1. split; assumption.
    + exact Hi.
    + exact H1.
    + rewrite Hp, Ht, El. replace (S (ticks s) + i)%nat with (ticks s + S i)%nat by lia.
      exact Hidle.
    + exists h'. split; [exact H'|]. split; [exact Eu|]. split; [congruence|].
      specialize (Hc (Conn h)). rewrite Ec in Hlt. lia.
Qed.

(** C8: a handle that the sweep visits (no nil marker stands before it in
    the deque) and whose time since the last access, at the clock reading
    of its (idle_visit clock), strictly exceeds [IdleTimeout] is marked unusable and its
    transport is closed; the sweep leaves the pool record as it was, so the
    deque holds the same elements in the same order, this handle at its
    position, and the gate holds the same tokens. *)
Theorem C8_sweep_marks_idle_handles_in_place
    (s : state) (q : BlockingDeque.blockingDeque wptr) (i a : nat) (h : WrappedConn) :
  conns (pool s) = Some q ->
  (forall j, (j < i)%nat ->
     exists b hb, Deque.container (BlockingDeque.dq q) !! j = Some (Ptr b) /\
                  heap s !! b = Some hb) ->
  Deque.container (BlockingDeque.dq q) !! i = Some (Ptr a) ->
  heap s !! a = Some h ->
  IdleTimeout (config (pool s)) < time_since (clock (ticks s + i)%nat) (lastAccess h) ->
  (exists h', heap (snd (sweep clock s)) !! a = Some h' /\
              unusable h' = true /\ Conn h' = Conn h) /\
  (closes (Conn h) (trace s) < closes (Conn h) (trace (snd (sweep clock s))))%nat /\
  conns (pool (snd (sweep clock s))) = Some q /\
  pool (snd (sweep clock s)) = pool s.
Proof.
  intros Hq Hvis Hi Ha Hidle.
  pose proof (keeps_pool_sweep clock s) as Hp.
  split; [|split]; [| |split; [rewrite Hp; exact Hq|exact Hp]].
  - unfold sweep, bind, get_pool; simpl. rewrite Hq.
    destruct (walk_marks i _ s a h Hvis Hi Ha Hidle) as (h' & H' & Eu & Ec & _).
    exists h'. repeat split; assumption.
  - unfold sweep, bind, get_pool; simpl. rewrite Hq.
    destruct (walk_marks i _ s a h Hvis Hi Ha Hidle) as (h' & _ & _ & _ & Hlt).
    exact Hlt.
Qed.
End Sweep.

Lemma C8_witness :
  exists h',
    heap (snd (sweep clock0 two_returned)) !! 1%nat = Some h' /\
    unusable h' = true /\
    conns (pool (snd (sweep clock0 two_returned))) = Some two_returned_queue.
Proof.
  destruct (C8_sweep_marks_idle_handles_in_place clock0 two_returned two_returned_queue
              1 1 {| Conn := 1%nat; unusable := false; lastAccess := 1 * Second |})
    as ((h' & H' & Hu & _) & _ & Hq & _).
  - reflexivity.
  - intros j Hj. destruct j as [|j]; [|lia].
    exists 0%nat, {| Conn := 0%nat; unusable := false; lastAccess := 0 |}.
    split; reflexivity.
  - reflexivity.
  - reflexivity.
  - vm_compute. reflexivity.
  - exists h'. split; [exact H'|]. split; [exact Hu|exact Hq].
Defined.

(** ** Closing a handle *)

Lemma append_wf (q : BlockingDeque.blockingDeque wptr) (c : wptr) :
  BlockingDeque.wf q ->
  fst (BlockingDeque.append q c) =
    if BlockingDeque.gate_full q then q else pushed_tail q c.
Proof.
  intros Hwf. unfold BlockingDeque.append.
  destruct (BlockingDeque.gate_full q) eqn:Hf; [reflexivity|]. simpl.
  unfold Deque.append. rewrite (wf_has_room q Hwf Hf). reflexivity.
Qed.

Lemma reachable_run_all (clock : nat -> Z) (defaultFactory : Factory)
    (os : list op) (s : state) :
  reachable clock defaultFactory s -> reachable clock defaultFactory (run_all clock os s).
Proof.
  revert s. induction os as [|o os IH]; intros s H; simpl; [exact H|].
  apply IH. constructor. exact H.
Qed.

(** On any state, closing a usable handle is a release followed by a
    destroy exactly when the release reported an error. *)
Lemma Close_usable_by_put (s : state) (a : nat) (h : WrappedConn) :
  heap s !! a = Some h -> unusable h = false ->
  Close (Ptr a) s =
    match put (Ptr a) s with
    | (Ret None, s1) => (Ret tt, s1)
    | (Ret (Some _), s1) => destroy (Ptr a) s1
    | (Panic, s1) => (Panic, s1)
    | (Block, s1) => (Block, s1)
    end.
Proof.
  intros Ha Hu. unfold Close. unfold bind at 1. rewrite (load_Ptr s a h Ha), Hu.
  unfold bind. destruct (put (Ptr a) s) as [[[e|]| |] s1]; reflexivity.
Qed.

(** C9, as the code has it: closing a handle whose unusable flag is set
    closes its transport and returns nil; when the gate has room it then
    pushes a nil marker at the tail of the deque and adds one token, and
    when the gate is full it leaves the queue and the gate unchanged.
    Closing a usable handle is the release of that handle (at the tail,
    one token added, when the gate has room), and it destroys the handle
    exactly when the release reports an error, which an open pool never
    does. *)
Theorem C9_close_of_a_handle (clock : nat -> Z) (defaultFactory : Factory)
    (s : state) (a : nat) (h : WrappedConn) :
  reachable clock defaultFactory s ->
  heap s !! a = Some h ->
  exists q,
    conns (pool s) = Some q /\
    (unusable h = true ->
     Close (Ptr a) s =
       (Ret tt,
        upd_pool
          (with_conns (Some (if BlockingDeque.gate_full q then q else pushed_tail q Nil)))
          (log (EvClose (Conn h)) s))) /\
    (unusable h = false ->
     Close (Ptr a) s =
       match put (Ptr a) s with
       | (Ret None, s1) => (Ret tt, s1)
       | (Ret (Some _), s1) => destroy (Ptr a) s1
       | (Panic, s1) => (Panic, s1)
       | (Block, s1) => (Block, s1)
       end /\
     put (Ptr a) s =
       (Ret None,
        upd_pool
          (with_conns (Some (if BlockingDeque.gate_full q then q else pushed_tail q (Ptr a))))
          s)).
Proof.
  intros Hr Ha. apply reachable_pool_ok in Hr.
  destruct Hr as (q & Hq & Hwf & _ & _ & Hcm).
  exists q. split; [exact Hq|]. split; intros Hu.
  - rewrite (Close_unusable s q a h Hq Ha Hu), (append_wf q Nil Hwf). reflexivity.
  - split; [exact (Close_usable_by_put s a h Ha Hu)|].
    rewrite (put_open s q (Ptr a) Hq). unfold released. rewrite Hcm. simpl.
    rewrite (append_wf q (Ptr a) Hwf). reflexivity.
Qed.

Lemma marker_queued_reachable : reachable clock0 dial_fresh marker_queued.
Proof.
  apply reachable_run_all.
  exact (reach_init clock0 dial_fresh "db:5432" (caller_config FIFO 0 1) None _ eq_refl).
Qed.

Lemma C9_witness :
  Close (Ptr 0) marker_queued = (Ret tt, log (EvClose 0%nat) marker_queued).
Proof.
  destruct (C9_close_of_a_handle clock0 dial_fresh marker_queued 0
              {| Conn := 0%nat; unusable := true; lastAccess := 0 |})
    as (q & Hq & Hdead & _).
  - apply reachable_run_all.
    exact (reach_init clock0 dial_fresh "db:5432" (caller_config FIFO 0 1) None _ eq_refl).
  - reflexivity.
  - rewrite (Hdead eq_refl). injection Hq as <-. reflexivity.
Defined.

(** C9 as stated fails: closing the dead handle of [marker_queued] a second
    time finds the gate full, so that no token is added. *)
Lemma C9_counterexample :
  ~ (forall (s : state) (a : nat) (h : WrappedConn),
       reachable clock0 dial_fresh s ->
       heap s !! a = Some h ->
       unusable h = true ->
       exists q q',
         conns (pool s) = Some q /\
         conns (pool (snd (Close (Ptr a) s))) = Some q' /\
         BlockingDeque.gate_len q' = S (BlockingDeque.gate_len q)).
Proof.
  intros H.
  destruct (H marker_queued 0%nat {| Conn := 0%nat; unusable := true; lastAccess := 0 |}
              marker_queued_reachable eq_refl eq_refl) as (q & q' & Hq & Hq' & Hlen).
  vm_compute in Hq, Hq'. injection Hq as <-. injection Hq' as <-.
  simpl in Hlen. discriminate.
Qed.

(** ** Acquiring *)

(** [Get] once the gate gave a token: the state with the token taken and
    the tail of the deque removed, and what is done with the popped
    element. *)
Lemma Get_after_acquire (clock : nat -> Z) (s : state)
    (q : BlockingDeque.blockingDeque wptr) (n : nat) :
  conns (pool s) = Some q ->
  BlockingDeque.gate_len q = S n ->
  let s1 :=
    upd_pool (with_conns (Some {| BlockingDeque.dq := fst (Deque.pop (BlockingDeque.dq q));
                                  BlockingDeque.gate_cap := BlockingDeque.gate_cap q;
                                  BlockingDeque.gate_len := n |})) s in
  Get clock s =
    match snd (Deque.pop (BlockingDeque.dq q)) with
    | None => NewWrapConn clock s1
    | Some Nil => (Panic, s1)
    | Some (Ptr a) =>
        match heap s !! a with
        | None => (Panic, s1)
        | Some h => if unusable h then NewWrapConn clock s1 else (Ret (Ok (Ptr a)), s1)
        end
    end.
Proof.
  intros Hq Hn. unfold Get, bind, get_pool; simpl. rewrite Hq.
  unfold BlockingDeque.pop. rewrite Hn.
  destruct (Deque.pop (BlockingDeque.dq q)) as [d [[|a]|]]; simpl; try reflexivity.
  destruct (heap s !! a) as [h|]; [|reflexivity].
  destruct (unusable h); reflexivity.
Qed.

(** C7 fails on the nil marker that [Close] queues for a dead handle: the
    marker is a nil [*WrappedConn] inside a non-nil interface value, the
    type assertion in [Get] succeeds on it, and reading its [unusable]
    field panics; the factory is not invoked.  The sweep panics on the
    same marker. *)
Theorem C7_Get_panics_on_nil_marker :
  (exists q,
     conns (pool marker_queued) = Some q /\
     Deque.container (BlockingDeque.dq q) = [Nil] /\ BlockingDeque.gate_len q = 1%nat) /\
  fst (Get clock0 marker_queued) = Panic /\
  dials (trace (snd (Get clock0 marker_queued))) = dials (trace marker_queued) /\
  fst (sweep clock0 marker_queued) = Panic.
Proof.
  split; [eexists; split; [reflexivity|split; reflexivity]|].
  split; [reflexivity|]. split; reflexivity.
Qed.

(** ** Construction with eager connections *)

(** C1 fails: [Merge] drops the caller's [InitCap], so that the pool holds
    no handle after construction and already the first acquire dials. *)
Theorem C1_first_acquire_dials :
  NewBlockingPool clock0 dial_fresh "db:5432" eager_config None =
    Ret (Ok (fresh_pool "db:5432" eager_config dial_fresh)) /\
  heap (fresh_pool "db:5432" eager_config dial_fresh) = [] /\
  dials (trace (fresh_pool "db:5432" eager_config dial_fresh)) = 0%nat /\
  fst (Get clock0 (fresh_pool "db:5432" eager_config dial_fresh)) = Ret (Ok (Ptr 0)) /\
  dials (trace (snd (Get clock0 (fresh_pool "db:5432" eager_config dial_fresh)))) = 1%nat.
Proof. repeat split. Qed.

(** C6 fails on its second half: after construction with [InitCap] 1 and
    [MaxCap] 2 the gate is full with 2 tokens, but all of them were
    preloaded ([InitCap] is 0 after the merge), no handle was created and
    the deque is empty. *)
Theorem C6_no_token_backed_by_a_handle :
  exists q,
    NewBlockingPool clock0 dial_fresh "db:5432" eager_config None =
      Ret (Ok (fresh_pool "db:5432" eager_config dial_fresh)) /\
    conns (pool (fresh_pool "db:5432" eager_config dial_fresh)) = Some q /\
    BlockingDeque.gate_len q = 2%nat /\ BlockingDeque.gate_cap q = 2 /\
    int_sub (MaxCap (fst (Merge defaultConfig eager_config)))
            (InitCap (fst (Merge defaultConfig eager_config))) = 2 /\
    real_handles (Deque.container (BlockingDeque.dq q)) = 0%nat /\
    heap (fresh_pool "db:5432" eager_config dial_fresh) = [] /\
    trace (fresh_pool "db:5432" eager_config dial_fresh) = [].
Proof. eexists. repeat split. Qed.

(** ** The return policy *)

(** C2 fails on its first half: a pool constructed with [FILO] runs with
    [FIFO], since [Merge] drops the caller's [CacheMethod]; after [A] then
    [B] were released, the next two acquires return [B] then [A]. *)
Theorem C2_queue_order_pool_reuses_in_stack_order :
  let s0 := fresh_pool "db:5432" queue_order_config dial_fresh in
  NewBlockingPool clock0 dial_fresh "db:5432" queue_order_config None = Ret (Ok s0) /\
  cacheMethod (config (pool s0)) = FIFO /\
  fst (Get clock0 (released_A_then_B s0)) = Ret (Ok (Ptr 1)) /\
  fst (Get clock0 (snd (Get clock0 (released_A_then_B s0)))) = Ret (Ok (Ptr 0)).
Proof. repeat split. Qed.

(** The release itself follows the policy it reads: with [FILO] in the
    pool's configuration and an empty deque, [A] then [B] come back in
    the order of their release; with [FIFO], in the opposite order. *)
Lemma put_follows_policy (cm : CacheMethod) :
  let s0 := upd_pool (with_config (mkConfig cm 0 2 Second Second Second Second))
              (fresh_pool "db:5432" queue_order_config dial_fresh) in
  (cm = FILO ->
   fst (Get clock0 (released_A_then_B s0)) = Ret (Ok (Ptr 0)) /\
   fst (Get clock0 (snd (Get clock0 (released_A_then_B s0)))) = Ret (Ok (Ptr 1))) /\
  (cm = FIFO ->
   fst (Get clock0 (released_A_then_B s0)) = Ret (Ok (Ptr 1)) /\
   fst (Get clock0 (snd (Get clock0 (released_A_then_B s0)))) = Ret (Ok (Ptr 0))).
Proof. split; intros ->; split; reflexivity. Qed.

(** ** A release that the gate rejects *)

(** C4 fails: [putBottom] and [putTop] drop the error of [append] and
    [prepend].  When the gate is full the queue rejects the handle with
    [errDequeFull], yet [put] returns nil and the transport is never
    closed: for a second release of a handle, and for the release of the
    second handle after the pool was shrunk. *)
Theorem C4_rejected_release_closes_nothing :
  (exists q,
     conns (pool returned_once) = Some q /\
     BlockingDeque.append q (Ptr 0) = (q, Some errDequeFull)) /\
  put (Ptr 0) returned_once = (Ret None, returned_once) /\
  Close (Ptr 0) returned_once = (Ret tt, returned_once) /\
  closes 0%nat (trace returned_once) = 0%nat /\
  (exists q,
     conns (pool shrunk_one_back) = Some q /\
     Deque.container (BlockingDeque.dq q) = [Ptr 0] /\
     BlockingDeque.append q (Ptr 1) = (q, Some errDequeFull)) /\
  put (Ptr 1) shrunk_one_back = (Ret None, shrunk_one_back) /\
  Close (Ptr 1) shrunk_one_back = (Ret tt, shrunk_one_back) /\
  closes 1%nat (trace shrunk_one_back) = 0%nat.
Proof.
  split; [eexists; split; reflexivity|].
  split; [reflexivity|]. split; [reflexivity|]. split; [reflexivity|].
  split; [eexists; split; [reflexivity|split; reflexivity]|].
  split; [reflexivity|]. split; reflexivity.
Qed.

(** * Further properties of the code *)

(** ** The deque on its own *)

Lemma deque_eta {A : Type} (s : Deque.deque A) :
  {| Deque.container := Deque.container s; Deque.capacity := Deque.capacity s |} = s.
Proof. destruct s; reflexivity. Qed.

Lemma deque_pop_append {A : Type} (s : Deque.deque A) (item : A) :
  Deque.has_room s = true ->
  Deque.pop (fst (Deque.append s item)) = (s, Some item).
Proof.
  intros Hroom. unfold Deque.append. rewrite Hroom. simpl.
  unfold Deque.pop. simpl. rewrite unsnoc_snoc. rewrite deque_eta. reflexivity.
Qed.

(** X1: an element appended to a deque with room is what the next [pop]
    returns, and that [pop] gives back the deque as it was before. *)
Theorem X1_deque_append_then_pop {A : Type} (s : Deque.deque A) (item : A) :
  Deque.has_room s = true ->
  snd (Deque.append s item) = true /\
  Deque.pop (fst (Deque.append s item)) = (s, Some item).
Proof.
  intros Hroom. split; [|exact (deque_pop_append s item Hroom)].
  unfold Deque.append. rewrite Hroom. reflexivity.
Qed.

Lemma X1_witness :
  Deque.pop (fst (Deque.append (Deque.newDeque 2) 7%nat)) = (Deque.newDeque 2, Some 7%nat).
Proof.
  exact (proj2 (X1_deque_append_then_pop (Deque.newDeque 2) 7%nat eq_refl)).
Defined.

(** X2: a deque with a capacity of zero or more never grows beyond it:
    [append] and [prepend] answer false exactly when the deque is at (or
    over) its capacity, leaving it untouched, and otherwise add exactly one
    element; a negative capacity never rejects. *)
Theorem X2_deque_capacity_is_respected {A : Type} (s : Deque.deque A) (item : A) :
  (snd (Deque.append s item) = false <->
   0 <= Deque.capacity s <= Z.of_nat (length (Deque.container s))) /\
  snd (Deque.prepend s item) = snd (Deque.append s item) /\
  (snd (Deque.append s item) = false ->
   fst (Deque.append s item) = s /\ fst (Deque.prepend s item) = s) /\
  (snd (Deque.append s item) = true ->
   length (Deque.container (fst (Deque.append s item))) = S (length (Deque.container s)) /\
   length (Deque.container (fst (Deque.prepend s item))) = S (length (Deque.container s)) /\
   (0 <= Deque.capacity s ->
    Z.of_nat (S (length (Deque.container s))) <= Deque.capacity s)).
Proof.
  unfold Deque.append, Deque.prepend, Deque.has_room.
  destruct (Z.ltb_spec (Deque.capacity s) 0) as [Hneg|Hpos]; simpl.
  - split; [split; [discriminate|lia]|]. split; [reflexivity|].
    split; [discriminate|]. intros _. rewrite length_app. simpl.
    split; [lia|]. split; [reflexivity|lia].
  - destruct (Z.ltb_spec (Z.of_nat (length (Deque.container s))) (Deque.capacity s))
      as [Hlt|Hge]; simpl.
    + split; [split; [discriminate|lia]|]. split; [reflexivity|].
      split; [discriminate|]. intros _. rewrite length_app. simpl.
      split; [lia|]. split; [reflexivity|lia].
    + split; [split; [lia|reflexivity]|]. split; [reflexivity|].
      split; [intros _; split; reflexivity|discriminate].
Qed.

(** X3: [prepend] puts an element behind everything already stored: on a
    non-empty deque with room the next [pop] still returns the old tail,
    and the new element is left at the front; on an empty deque it returns
    the new element. *)
Theorem X3_deque_prepend_goes_to_the_far_end {A : Type}
    (s : Deque.deque A) (item : A) :
  Deque.has_room s = true ->
  (forall init last,
     Deque.container s = init ++ [last] ->
     Deque.pop (fst (Deque.prepend s item)) =
       ({| Deque.container := item :: init; Deque.capacity := Deque.capacity s |},
        Some last)) /\
  (Deque.container s = [] ->
   Deque.pop (fst (Deque.prepend s item)) = (s, Some item)).
Proof.
  intros Hroom. unfold Deque.prepend. rewrite Hroom. simpl. unfold Deque.pop. simpl.
  split.
  - intros init last ->. rewrite unsnoc_snoc. reflexivity.
  - intros He. rewrite He. simpl. rewrite <- He, deque_eta. reflexivity.
Qed.

Lemma X3_witness :
  Deque.pop (fst (Deque.prepend {| Deque.container := [1%nat; 2%nat]; Deque.capacity := 5 |} 9%nat))
  = ({| Deque.container := [9%nat; 1%nat]; Deque.capacity := 5 |}, Some 2%nat).
Proof.
  exact (proj1 (X3_deque_prepend_goes_to_the_far_end
                  {| Deque.container := [1%nat; 2%nat]; Deque.capacity := 5 |} 9%nat eq_refl)
           [1%nat] 2%nat eq_refl).
Defined.

(** A walk over two lists in a row is the walk over the first, continued
    over the second unless the first one ended in a panic. *)
Lemma walk_items_app {A St : Type} (walkFn : A -> St -> res unit * St)
    (pre rest : list A) (st : St) :
  Deque.walk_items walkFn (pre ++ rest) st =
    match Deque.walk_items walkFn pre st with
    | (Ret _, st') => Deque.walk_items walkFn rest st'
    | (Panic, st') => (Panic, st')
    | (Block, st') => (Block, st')
    end.
Proof.
  revert st. induction pre as [|x pre IH]; intros st; simpl; [reflexivity|].
  destruct (walkFn x st) as [[u| |] st']; [apply IH|reflexivity..].
Qed.

(** X4: [walk] calls the visitor once on every element, from the front to
    the tail, and leaves the deque alone; a panic of the visitor ends the
    walk, so that the elements behind the panicking one are not visited. *)
Theorem X4_walk_visits_front_to_tail {A : Type} (s : Deque.deque A) (bad : A -> bool)
    (pre post : list A) (x : A) :
  Deque.walk s record_visit [] = (Ret tt, Deque.container s) /\
  (Deque.container s = pre ++ x :: post ->
   forallb (fun y => negb (bad y)) pre = true -> bad x = true ->
   Deque.walk s (visit_unless bad) [] = (Panic, pre)).
Proof.
  unfold Deque.walk. split.
  - change (Deque.container s) with ([] ++ Deque.container s) at 2.
    generalize (@nil A) as seen.
    induction (Deque.container s) as [|y l IH]; intros seen; simpl.
    + rewrite app_nil_r. reflexivity.
    + rewrite IH, <- app_assoc. reflexivity.
  - intros -> Hpre Hx.
    assert (Hw : forall seen, Deque.walk_items (visit_unless bad) pre seen = (Ret tt, seen ++ pre)).
    { clear Hx. induction pre as [|y l IH]; intros seen; simpl.
      - rewrite app_nil_r. reflexivity.
      - simpl in Hpre. apply andb_true_iff in Hpre as [Hy Hl].
        unfold visit_unless at 1. apply negb_true_iff in Hy. rewrite Hy.
        rewrite (IH Hl), <- app_assoc. reflexivity. }
    rewrite walk_items_app, Hw. simpl. unfold visit_unless. rewrite Hx. reflexivity.
Qed.

Lemma X4_witness :
  Deque.walk {| Deque.container := [1%nat; 2%nat; 0%nat; 3%nat]; Deque.capacity := 4 |}
    (visit_unless (Nat.eqb 0)) [] = (Panic, [1%nat; 2%nat]).
Proof.
  exact (proj2 (X4_walk_visits_front_to_tail
                  {| Deque.container := [1%nat; 2%nat; 0%nat; 3%nat]; Deque.capacity := 4 |}
                  (Nat.eqb 0) [1%nat; 2%nat] [3%nat] 0%nat) eq_refl eq_refl eq_refl).
Defined.

(** ** The bounded queue on its own *)

Lemma fill_Block {A : Type} (n : nat) (q : BlockingDeque.blockingDeque A) :
  BlockingDeque.gate_cap q < Z.of_nat (BlockingDeque.gate_len q) + Z.of_nat n ->
  (0 < n)%nat ->
  BlockingDeque.fill n q = Block.
Proof.
  revert q. induction n as [|n IH]; intros q Hlt Hn; [lia|]. simpl.
  unfold BlockingDeque.send, BlockingDeque.gate_full.
  destruct (Z.leb_spec (BlockingDeque.gate_cap q) (Z.of_nat (BlockingDeque.gate_len q)))
    as [Hfull|Hroom]; [reflexivity|].
  apply IH; simpl; lia.
Qed.


(** X5: [newBlockingDeque] panics exactly for a negative capacity, never
    returns when asked to preload more tokens than the capacity, and
    otherwise returns an empty deque behind a gate that holds [nilCap]
    tokens (none for a negative [nilCap]). *)
Theorem X5_newBlockingDeque_outcomes {A : Type} (maxCap nilCap : Z) :
  BlockingDeque.newBlockingDeque (A := A) maxCap nilCap =
    if maxCap <? 0 then Panic
    else if maxCap <? nilCap then Block
    else Ret {| BlockingDeque.dq := Deque.newDeque maxCap;
                BlockingDeque.gate_cap := maxCap;
                BlockingDeque.gate_len := Z.to_nat nilCap |}.
Proof.
  destruct (Z.ltb_spec maxCap 0) as [Hneg|Hpos].
  - unfold BlockingDeque.newBlockingDeque.
    destruct (Z.ltb_spec maxCap 0) as [_|Hge]; [reflexivity|lia].
  - destruct (Z.ltb_spec maxCap nilCap) as [Hlt|Hle].
    + unfold BlockingDeque.newBlockingDeque.
      destruct (Z.ltb_spec maxCap 0) as [Hn|_]; [lia|].
      apply fill_Block; simpl; lia.
    + apply newBlockingDeque_ok; assumption.
Qed.





(** ** More on Merge *)

Lemma Merge_no_wants (c new : Config) :
  wants MaxCap c new = false -> wants DialTimeout c new = false ->
  wants IOTimeout c new = false -> wants WaitTimeout c new = false ->
  wants IdleTimeout c new = false ->
  Merge c new = (c, false).
Proof.
  unfold wants. destruct c, new; simpl. intros H1 H2 H3 H4 H5.
  unfold Merge, adopt; cbn. rewrite H1; cbn. rewrite H2; cbn. rewrite H3; cbn.
  rewrite H4; cbn. rewrite H5. reflexivity.
Qed.

Lemma Merge_fields (c new : Config) :
  MaxCap (fst (Merge c new)) = (if 0 <? MaxCap new then MaxCap new else MaxCap c) /\
  DialTimeout (fst (Merge c new)) =
    (if 0 <? DialTimeout new then DialTimeout new else DialTimeout c) /\
  IOTimeout (fst (Merge c new)) = (if 0 <? IOTimeout new then IOTimeout new else IOTimeout c) /\
  WaitTimeout (fst (Merge c new)) =
    (if 0 <? WaitTimeout new then WaitTimeout new else WaitTimeout c) /\
  IdleTimeout (fst (Merge c new)) =
    (if 0 <? IdleTimeout new then IdleTimeout new else IdleTimeout c).
Proof.
  unfold Merge, adopt.
  destruct c as [cm ic mc it wt io dt], new as [cm' ic' mc' it' wt' io' dt']; cbn.
  destruct (Z.ltb_spec 0 mc') as [P1|P1], (Z.eqb_spec mc' mc) as [E1|E1]; cbn;
  destruct (Z.ltb_spec 0 dt') as [P2|P2], (Z.eqb_spec dt' dt) as [E2|E2]; cbn;
  destruct (Z.ltb_spec 0 io') as [P3|P3], (Z.eqb_spec io' io) as [E3|E3]; cbn;
  destruct (Z.ltb_spec 0 wt') as [P4|P4], (Z.eqb_spec wt' wt) as [E4|E4]; cbn;
  destruct (Z.ltb_spec 0 it') as [P5|P5], (Z.eqb_spec it' it) as [E5|E5]; cbn;
  repeat split; congruence.
Qed.

Lemma Merge_changed (c new : Config) :
  snd (Merge c new) =
    wants MaxCap c new || wants DialTimeout c new || wants IOTimeout c new ||
    wants WaitTimeout c new || wants IdleTimeout c new.
Proof.
  unfold Merge, adopt, wants.
  destruct c as [cm ic mc it wt io dt], new as [cm' ic' mc' it' wt' io' dt']; cbn.
  destruct ((0 <? mc') && negb (mc' =? mc)); cbn;
  destruct ((0 <? dt') && negb (dt' =? dt)); cbn;
  destruct ((0 <? io') && negb (io' =? io)); cbn;
  destruct ((0 <? wt') && negb (wt' =? wt)); cbn;
  destruct ((0 <? it') && negb (it' =? it)); reflexivity.
Qed.

(** X8: [Merge] takes each of the five tunables from the incoming
    configuration when the incoming value is positive, and from the
    receiver otherwise; the flag it returns is true exactly when the
    result differs from the receiver. *)
Theorem X8_Merge_adopts_positive_values (c new : Config) :
  (MaxCap (fst (Merge c new)) = (if 0 <? MaxCap new then MaxCap new else MaxCap c) /\
   DialTimeout (fst (Merge c new)) =
     (if 0 <? DialTimeout new then DialTimeout new else DialTimeout c) /\
   IOTimeout (fst (Merge c new)) =
     (if 0 <? IOTimeout new then IOTimeout new else IOTimeout c) /\
   WaitTimeout (fst (Merge c new)) =
     (if 0 <? WaitTimeout new then WaitTimeout new else WaitTimeout c) /\
   IdleTimeout (fst (Merge c new)) =
     (if 0 <? IdleTimeout new then IdleTimeout new else IdleTimeout c)) /\
  (snd (Merge c new) = true <-> fst (Merge c new) <> c).
Proof.
  split; [apply Merge_fields|].
  destruct (Merge_fields c new) as (F1 & F2 & F3 & F4 & F5).
  rewrite Merge_changed. split.
  - intros Hw Heq. rewrite Heq in F1, F2, F3, F4, F5. unfold wants in Hw.
    repeat (apply orb_true_iff in Hw as [Hw|Hw]);
      apply andb_true_iff in Hw as [Hp Hn]; apply negb_true_iff in Hn;
      apply Z.eqb_neq in Hn; rewrite Hp in *; congruence.
  - intros Hne.
    destruct (wants MaxCap c new) eqn:W1; [reflexivity|].
    destruct (wants DialTimeout c new) eqn:W2; [reflexivity|].
    destruct (wants IOTimeout c new) eqn:W3; [reflexivity|].
    destruct (wants WaitTimeout c new) eqn:W4; [reflexivity|].
    destruct (wants IdleTimeout c new) eqn:W5; [reflexivity|].
    exfalso. apply Hne. rewrite (Merge_no_wants c new W1 W2 W3 W4 W5). reflexivity.
Qed.

Lemma wants_after_Merge (get : Config -> Z) (c new : Config) :
  get (fst (Merge c new)) = (if 0 <? get new then get new else get c) ->
  wants get (fst (Merge c new)) new = false.
Proof.
  intros H. unfold wants. rewrite H.
  destruct (0 <? get new); [|reflexivity]. rewrite Z.eqb_refl. reflexivity.
Qed.

(** X9: merging the same incoming configuration a second time changes
    nothing and reports no change. *)
Theorem X9_Merge_is_idempotent (c new : Config) :
  Merge (fst (Merge c new)) new = (fst (Merge c new), false).
Proof.
  destruct (Merge_fields c new) as (F1 & F2 & F3 & F4 & F5).
  apply Merge_no_wants; apply wants_after_Merge; assumption.
Qed.

Lemma Merge_tunables_positive (c new : Config) :
  tunables_positive c -> tunables_positive (fst (Merge c new)).
Proof.
  intros (P1 & P2 & P3 & P4 & P5).
  destruct (Merge_fields c new) as (F1 & F2 & F3 & F4 & F5).
  unfold tunables_positive. rewrite F1, F2, F3, F4, F5.
  repeat split;
    match goal with |- 0 < (if 0 <? ?x then _ else _) =>
      destruct (Z.ltb_spec 0 x); assumption end.
Qed.

(** ** Resizing *)

(** What [Update] does to a pool whose capacity is a Go integer and not
    negative, given an incoming capacity that is a Go integer. *)
Lemma Update_eq (c : Config) (s : state) :
  is_int (MaxCap c) -> is_int (MaxCap (config (pool s))) ->
  0 <= MaxCap (config (pool s)) ->
  let c' := fst (Merge (config (pool s)) c) in
  Update c s =
    (Ret tt,
     if snd (Merge (config (pool s)) c)
     then
       if MaxCap c' =? MaxCap (config (pool s))
       then upd_pool (with_config c') s
       else upd_pool (with_config c')
              (upd_pool (with_conns
                           (Some (resized_queue (MaxCap (config (pool s))) (MaxCap c')))) s)
     else s).
Proof.
  intros Hc Hold Hpos. simpl.
  assert (Hm : is_int (MaxCap (fst (Merge (config (pool s)) c))) /\
               0 <= MaxCap (fst (Merge (config (pool s)) c))).
  { rewrite Merge_MaxCap. destruct (Z.ltb_spec 0 (MaxCap c)); split; try assumption; lia. }
  destruct Hm as [Hm Hm0].
  unfold Update, bind, get_pool; simpl.
  destruct (Merge (config (pool s)) c) as [c' changed] eqn:HM; simpl in *.
  destruct changed; [|reflexivity].
  destruct (Z.eqb_spec (MaxCap c') (MaxCap (config (pool s)))) as [Heq|Hne]; simpl;
    [reflexivity|].
  assert (Hsub : int_sub (MaxCap c') (MaxCap (config (pool s))) =
                 MaxCap c' - MaxCap (config (pool s))).
  { unfold int_sub. apply wrap64_id. unfold is_int, min_int, max_int in *. lia. }
  rewrite Hsub, newBlockingDeque_ok by lia. reflexivity.
Qed.

(** The invariant of a pool that is also resized. *)
Lemma pool_ok_Update (c : Config) (s : state) :
  is_int (MaxCap c) ->
  pool_ok (pool s) -> is_int (MaxCap (config (pool s))) ->
  tunables_positive (config (pool s)) ->
  pool_ok (pool (snd (Update c s))) /\
  is_int (MaxCap (config (pool (snd (Update c s))))) /\
  tunables_positive (config (pool (snd (Update c s)))).
Proof.
  intros Hc Hok Hold Hpos.
  assert (H0 : 0 <= MaxCap (config (pool s))) by (destruct Hpos as (P & _); lia).
  rewrite (Update_eq c s Hc Hold H0). simpl.
  assert (Hm : is_int (MaxCap (fst (Merge (config (pool s)) c)))).
  { rewrite Merge_MaxCap. destruct (Z.ltb_spec 0 (MaxCap c)); assumption. }
  pose proof (Merge_tunables_positive (config (pool s)) c Hpos) as Hp'.
  destruct Hok as (q & Hq & Hwf & Hcap & Hic & Hcm).
  destruct (snd (Merge (config (pool s)) c)).
  - destruct (Z.eqb_spec (MaxCap (fst (Merge (config (pool s)) c))) (MaxCap (config (pool s))))
      as [Heq|Hne]; simpl.
    + split; [|split; assumption].
      exists q. simpl. repeat split; try apply Hwf; try assumption.
      * congruence.
      * rewrite Merge_InitCap. exact Hic.
      * rewrite Merge_cacheMethod. exact Hcm.
    + split; [|split; assumption].
      eexists. simpl. split; [reflexivity|].
      split; [|split; [reflexivity|split;
        [rewrite Merge_InitCap; exact Hic|rewrite Merge_cacheMethod; exact Hcm]]].
      destruct Hp' as (P & _). unfold BlockingDeque.wf, resized_queue; simpl.
      repeat split; lia.
  - split; [|split; assumption].
    exists q. repeat split; try apply Hwf; assumption.
Qed.

Lemma pool_step_config (p p' : blockingPool) : pool_step p p' -> config p' = config p.
Proof. intros [->|(q & q' & _ & _ & ->)]; reflexivity. Qed.

Lemma reachable_upd_inv (clock : nat -> Z) (defaultFactory : Factory) (s : state) :
  reachable_upd clock defaultFactory s ->
  pool_ok (pool s) /\ is_int (MaxCap (config (pool s))) /\
  tunables_positive (config (pool s)).
Proof.
  induction 1 as [address c factory s Hc H|o s _ IH|c s Hc _ IH].
  - split; [exact (NewBlockingPool_pool_ok clock defaultFactory address c factory s H)|].
    apply NewBlockingPool_Ok in H as (_ & _ & _ & ->). simpl.
    split.
    + rewrite Merge_MaxCap. change (MaxCap defaultConfig) with 1.
      destruct (Z.ltb_spec 0 (MaxCap c)); [assumption|].
      unfold is_int, min_int, max_int. lia.
    + apply Merge_tunables_positive. unfold tunables_positive, defaultConfig, Second, Nanosecond.
      simpl. lia.
  - destruct IH as (Hok & Hint & Hpos).
    pose proof (run_pool_step clock o s) as Hs.
    rewrite (pool_step_config _ _ Hs).
    split; [exact (pool_step_ok _ _ Hs Hok)|]. split; assumption.
  - destruct IH as (Hok & Hint & Hpos).
    exact (pool_ok_Update c s Hc Hok Hint Hpos).
Qed.

(** X10: whatever configurations the constructor and [Update] were given,
    the five tunables of the pool's configuration are positive (unset and
    negative values fall back to the defaults or to the previous values),
    while its initial capacity stays 0 and its policy [FIFO]. *)
Theorem X10_pool_configuration_stays_positive
    (clock : nat -> Z) (defaultFactory : Factory) (s : state) :
  reachable_upd clock defaultFactory s ->
  tunables_positive (config (pool s)) /\
  InitCap (config (pool s)) = 0 /\ cacheMethod (config (pool s)) = FIFO.
Proof.
  intros Hr. apply reachable_upd_inv in Hr as (Hok & _ & Hpos).
  destruct Hok as (q & _ & _ & _ & Hic & Hcm). split; [exact Hpos|]. split; assumption.
Qed.

(** X11: the bounds of the gate survive a resize: in every state reached
    by construction, pool operations and [Update], the pool is open, the
    gate holds at most [MaxCap] tokens and the deque never holds more
    elements than the gate holds tokens. *)
Theorem X11_gate_bounds_survive_Update
    (clock : nat -> Z) (defaultFactory : Factory) (s : state) :
  reachable_upd clock defaultFactory s ->
  exists q,
    conns (pool s) = Some q /\
    BlockingDeque.gate_cap q = MaxCap (config (pool s)) /\
    Z.of_nat (BlockingDeque.gate_len q) <= MaxCap (config (pool s)) /\
    (length (Deque.container (BlockingDeque.dq q)) <= BlockingDeque.gate_len q)%nat.
Proof.
  intros Hr. apply reachable_upd_inv in Hr as (Hok & _ & _).
  destruct Hok as (q & Hq & (Hc & H0 & Hl & Hg) & Hcap & _).
  exists q. split; [exact Hq|]. split; [exact Hcap|]. split; [lia|exact Hl].
Qed.

(** ** What the operations never do *)

#[export] Instance same_dials_refl : Reflexive same_dials.
Proof. intros s. reflexivity. Qed.

#[export] Instance same_dials_trans : Transitive same_dials.
Proof. intros s1 s2 s3 H1 H2. unfold same_dials in *. congruence. Qed.

#[export] Instance same_closes_refl : Reflexive same_closes.
Proof. intros s c. reflexivity. Qed.

#[export] Instance same_closes_trans : Transitive same_closes.
Proof. intros s1 s2 s3 H1 H2 c. rewrite H2. apply H1. Qed.

#[export] Instance heap_mono_refl : Reflexive heap_mono.
Proof. intros s b hb H. exists hb. repeat split; [exact H|tauto]. Qed.

#[export] Instance heap_mono_trans : Transitive heap_mono.
Proof.
  intros s1 s2 s3 H1 H2 b hb H.
  destruct (H1 b hb H) as (h2 & Hb2 & Ec & Eu).
  destruct (H2 b h2 Hb2) as (h3 & Hb3 & Ec' & Eu').
  exists h3. repeat split; [exact Hb3|congruence|tauto].
Qed.

Lemma respects_ret (R : state -> state -> Prop) `{!Reflexive R} {A : Type} (a : A) :
  respects R (ret a).
Proof. intros s. simpl. reflexivity. Qed.

Lemma respects_panic (R : state -> state -> Prop) `{!Reflexive R} {A : Type} :
  respects R (@panic A).
Proof. intros s. simpl. reflexivity. Qed.

Lemma respects_const (R : state -> state -> Prop) `{!Reflexive R} {A : Type} (r : res A) :
  respects R (fun s => (r, s)).
Proof. intros s. simpl. reflexivity. Qed.

Lemma respects_get_pool (R : state -> state -> Prop) `{!Reflexive R} :
  respects R get_pool.
Proof. intros s. simpl. reflexivity. Qed.

Lemma respects_load (R : state -> state -> Prop) `{!Reflexive R} (c : wptr) :
  respects R (load c).
Proof. intros s. rewrite load_state. reflexivity. Qed.

Lemma respects_bind (R : state -> state -> Prop) `{!Transitive R} {A B : Type}
    (m : M A) (k : A -> M B) :
  respects R m -> (forall a, respects R (k a)) -> respects R (bind m k).
Proof.
  intros Hm Hk s. unfold bind. specialize (Hm s).
  destruct (m s) as [[a| |] s'] eqn:E; simpl in *; [|assumption..].
  exact (transitivity Hm (Hk a s')).
Qed.

Lemma respects_walk_items (R : state -> state -> Prop) `{!Reflexive R} `{!Transitive R}
    (walkFn : wptr -> M unit) (items : list wptr) :
  (forall x, respects R (walkFn x)) -> respects R (Deque.walk_items walkFn items).
Proof.
  intros Hf. induction items as [|x rest IH]; intros s; simpl; [reflexivity|].
  pose proof (Hf x s) as Hx.
  destruct (walkFn x s) as [[u| |] s1]; simpl in *; [|assumption..].
  exact (transitivity Hx (IH s1)).
Qed.

(** Steps that leave the heap and the trace as they are respect each of
    the three relations. *)
Lemma quiet_same_dials (s s' : state) : trace s' = trace s -> same_dials s s'.
Proof. intros H. unfold same_dials. rewrite H. reflexivity. Qed.

Lemma quiet_same_closes (s s' : state) : trace s' = trace s -> same_closes s s'.
Proof. intros H c. rewrite H. reflexivity. Qed.

Lemma quiet_heap_mono (s s' : state) : heap s' = heap s -> heap_mono s s'.
Proof. intros H b hb Hb. exists hb. rewrite H. repeat split; [exact Hb|tauto]. Qed.

Lemma dials_snoc (t : list event) (e : event) :
  dials (t ++ [e]) = (dials t + (if is_dial e then 1 else 0))%nat.
Proof.
  unfold dials. rewrite List.filter_app, length_app. simpl.
  destruct (is_dial e); reflexivity.
Qed.

Lemma heap_mono_set_unusable (c : wptr) : respects heap_mono (set_unusable c).
Proof.
  intros s. destruct c as [|a]; [apply quiet_heap_mono; reflexivity|].
  destruct (heap s !! a) as [h|] eqn:Ha.
  - rewrite (set_unusable_Ptr s a h Ha). simpl. intros b hb Hb. simpl.
    destruct (decide (a = b)) as [->|Hne].
    + assert (hb = h) by congruence. subst hb. exists (mark h).
      split; [|split; reflexivity].
      apply list_lookup_insert_eq. apply lookup_lt_Some in Ha. exact Ha.
    + exists hb. rewrite list_lookup_insert_ne by exact Hne.
      repeat split; [exact Hb|tauto].
  - unfold set_unusable, bind, load. rewrite Ha. apply quiet_heap_mono. reflexivity.
Qed.

Lemma heap_mono_set_lastAccess (c : wptr) (t : Z) : respects heap_mono (set_lastAccess c t).
Proof.
  intros s. destruct c as [|a]; [apply quiet_heap_mono; reflexivity|].
  unfold set_lastAccess, bind, load. destruct (heap s !! a) as [h|] eqn:Ha;
    [|apply quiet_heap_mono; reflexivity].
  simpl. intros b hb Hb. simpl.
  destruct (decide (a = b)) as [->|Hne].
  - assert (hb = h) by congruence. subst hb. exists (touch t h).
    split; [|split; [reflexivity|tauto]].
    apply list_lookup_insert_eq. apply lookup_lt_Some in Ha. exact Ha.
  - exists hb. rewrite list_lookup_insert_ne by exact Hne.
    repeat split; [exact Hb|tauto].
Qed.

Lemma heap_mono_alloc (h : WrappedConn) : respects heap_mono (alloc h).
Proof.
  intros s b hb Hb. exists hb. simpl.
  split; [apply lookup_app_l_Some; exact Hb|]. split; [reflexivity|tauto].
Qed.

Lemma heap_mono_quiet {A : Type} (m : M A) :
  (forall s, heap (snd (m s)) = heap s) -> respects heap_mono m.
Proof. intros H s. apply quiet_heap_mono, H. Qed.

Lemma same_dials_quiet {A : Type} (m : M A) :
  (forall s, trace (snd (m s)) = trace s) -> respects same_dials m.
Proof. intros H s. apply quiet_same_dials, H. Qed.

Lemma same_closes_quiet {A : Type} (m : M A) :
  (forall s, trace (snd (m s)) = trace s) -> respects same_closes m.
Proof. intros H s. apply quiet_same_closes, H. Qed.

Lemma same_dials_emit_close (c : conn) : respects same_dials (emit (EvClose c)).
Proof. intros s. unfold same_dials. simpl. rewrite dials_snoc. simpl. lia. Qed.

Lemma same_closes_dial : respects same_closes dial.
Proof. intros s c. simpl. rewrite closes_snoc. simpl. lia. Qed.

Create HintDb resp.
#[export] Hint Resolve respects_ret respects_panic respects_const respects_get_pool
  respects_load heap_mono_set_unusable heap_mono_set_lastAccess heap_mono_alloc
  same_dials_emit_close same_closes_dial : resp.
#[export] Hint Extern 2 (respects heap_mono _) =>
  (apply heap_mono_quiet; intros ?; reflexivity) : resp.
#[export] Hint Extern 2 (respects same_dials _) =>
  (apply same_dials_quiet; intros ?; reflexivity) : resp.
#[export] Hint Extern 2 (respects same_closes _) =>
  (apply same_closes_quiet; intros ?; reflexivity) : resp.

Ltac resp :=
  repeat first
    [ progress auto with resp typeclass_instances
    | apply respects_bind; [typeclasses eauto| |]
    | apply respects_walk_items; [typeclasses eauto|typeclasses eauto|]
    | match goal with
      | |- forall _, respects _ _ => intro
      | |- respects _ (fun s' => ?m s') => change (respects _ m)
      | |- respects _ (if ?b then _ else _) => destruct b
      | |- respects _ (let '(_, _) := ?x in _) => destruct x
      | |- respects _ (match ?x with _ => _ end) => destruct x
      | |- respects _ (fun s' => match ?x with _ => _ end) => destruct x
      end ].

Section Never.
Variable clock : nat -> Z.

Lemma heap_mono_NewWrapConn : respects heap_mono (NewWrapConn clock).
Proof. unfold NewWrapConn. resp. Qed.

Lemma heap_mono_destroy (c : wptr) : respects heap_mono (destroy c).
Proof. unfold destroy. resp. Qed.

Hint Resolve heap_mono_NewWrapConn heap_mono_destroy : resp.

Lemma heap_mono_Get : respects heap_mono (Get clock).
Proof. unfold Get. resp. Qed.

Lemma heap_mono_put (c : wptr) : respects heap_mono (put c).
Proof. unfold put, putBottom, putTop. resp. Qed.

Hint Resolve heap_mono_put : resp.

Lemma heap_mono_Close (c : wptr) : respects heap_mono (Close c).
Proof. unfold Close, putBottom. resp. Qed.

Lemma heap_mono_checkIdle (c : wptr) : respects heap_mono (checkIdle clock c).
Proof. unfold checkIdle. resp. Qed.

Hint Resolve heap_mono_checkIdle : resp.

Lemma heap_mono_sweep : respects heap_mono (sweep clock).
Proof. unfold sweep, BlockingDeque.Walk, Deque.walk, idle_visit. resp. Qed.

Lemma heap_mono_Write (c : wptr) (io_ok : bool) : respects heap_mono (Write clock c io_ok).
Proof. unfold Write. resp. Qed.

Lemma heap_mono_Read (c : wptr) (io_ok : bool) : respects heap_mono (Read clock c io_ok).
Proof. unfold Read. resp. Qed.

Lemma Update_heap_trace (c : Config) (s : state) :
  heap (snd (Update c s)) = heap s /\ trace (snd (Update c s)) = trace s.
Proof.
  unfold Update, bind, get_pool; simpl.
  destruct (Merge (config (pool s)) c) as [c' changed].
  destruct changed; [|split; reflexivity].
  destruct (negb (MaxCap c' =? MaxCap (config (pool s)))); [|split; reflexivity].
  destruct (BlockingDeque.newBlockingDeque (MaxCap c')
              (int_sub (MaxCap c') (MaxCap (config (pool s))))); split; reflexivity.
Qed.

Lemma same_dials_set_unusable (c : wptr) : respects same_dials (set_unusable c).
Proof. unfold set_unusable. resp. Qed.

Lemma same_dials_set_lastAccess (c : wptr) (t : Z) : respects same_dials (set_lastAccess c t).
Proof. unfold set_lastAccess. resp. Qed.

Lemma same_dials_destroy (c : wptr) : respects same_dials (destroy c).
Proof. unfold destroy. resp. Qed.

Hint Resolve same_dials_set_unusable same_dials_set_lastAccess same_dials_destroy : resp.

Lemma same_dials_put (c : wptr) : respects same_dials (put c).
Proof. unfold put, putBottom, putTop. resp. Qed.

Hint Resolve same_dials_put : resp.

Lemma same_dials_Close (c : wptr) : respects same_dials (Close c).
Proof. unfold Close, putBottom. resp. Qed.

Lemma same_dials_checkIdle (c : wptr) : respects same_dials (checkIdle clock c).
Proof. unfold checkIdle. resp. Qed.

Hint Resolve same_dials_checkIdle : resp.

Lemma same_dials_sweep : respects same_dials (sweep clock).
Proof. unfold sweep, BlockingDeque.Walk, Deque.walk, idle_visit. resp. Qed.

Lemma same_dials_Write (c : wptr) (io_ok : bool) : respects same_dials (Write clock c io_ok).
Proof. unfold Write. resp. Qed.

Lemma same_dials_Read (c : wptr) (io_ok : bool) : respects same_dials (Read clock c io_ok).
Proof. unfold Read. resp. Qed.

Lemma same_closes_set_unusable (c : wptr) : respects same_closes (set_unusable c).
Proof. unfold set_unusable. resp. Qed.

Lemma same_closes_set_lastAccess (c : wptr) (t : Z) :
  respects same_closes (set_lastAccess c t).
Proof. unfold set_lastAccess. resp. Qed.

Hint Resolve same_closes_set_unusable same_closes_set_lastAccess : resp.

Lemma same_closes_NewWrapConn : respects same_closes (NewWrapConn clock).
Proof. unfold NewWrapConn. resp. Qed.

Hint Resolve same_closes_NewWrapConn : resp.

Lemma same_closes_Get : respects same_closes (Get clock).
Proof. unfold Get. resp. Qed.

Lemma same_closes_Write (c : wptr) (io_ok : bool) : respects same_closes (Write clock c io_ok).
Proof. unfold Write. resp. Qed.

Lemma same_closes_Read (c : wptr) (io_ok : bool) : respects same_closes (Read clock c io_ok).
Proof. unfold Read. resp. Qed.

Lemma NewWrapConn_dials (s : state) :
  dials (trace (snd (NewWrapConn clock s))) = S (dials (trace s)).
Proof.
  rewrite NewWrapConn_eq. simpl.
  destruct (factory (pool s) (address (pool s)) (DialTimeout (config (pool s))) (trace s));
    simpl; rewrite dials_snoc; simpl; lia.
Qed.

Lemma Get_dials (s : state) :
  (dials (trace s) <= dials (trace (snd (Get clock s))) <= S (dials (trace s)))%nat.
Proof.
  unfold Get, bind, get_pool; simpl.
  destruct (conns (pool s)) as [q|]; [|simpl; lia].
  destruct (BlockingDeque.pop q (WaitTimeout (config (pool s)))) as [q' [item|e]];
    simpl; [|lia].
  destruct item as [c|].
  - pose proof (load_state c (upd_pool (with_conns (Some q')) s)) as Hl.
    destruct (load c (upd_pool (with_conns (Some q')) s)) as [[h| |] s0];
      simpl in Hl; subst s0; simpl; [|lia..].
    destruct (unusable h); [rewrite NewWrapConn_dials|]; simpl; lia.
  - rewrite NewWrapConn_dials. simpl. lia.
Qed.

(** X12: no operation of the pool, and no resize, ever frees a handle,
    exchanges its transport or clears its unusable flag: a handle that is
    unusable stays unusable. *)
Theorem X12_handles_are_never_revived (o : op) (c : Config) (s : state) :
  heap_mono s (run clock o s) /\ heap_mono s (snd (Update c s)).
Proof.
  split.
  - destruct o as [|w|w| |w|w b|w b]; simpl.
    + apply heap_mono_Get.
    + apply heap_mono_put.
    + apply heap_mono_Close.
    + apply heap_mono_sweep.
    + apply heap_mono_set_unusable.
    + apply heap_mono_Write.
    + apply heap_mono_Read.
  - apply quiet_heap_mono. apply Update_heap_trace.
Qed.

(** X13: the factory is invoked by [Get] only, and at most once per call:
    releases, closes, sweeps, marking, reads, writes and resizes never
    dial. *)
Theorem X13_only_Get_dials (o : op) (c : Config) (s : state) :
  (dials (trace s) <= dials (trace (snd (Get clock s))) <= S (dials (trace s)))%nat /\
  (o <> OpGet -> dials (trace (run clock o s)) = dials (trace s)) /\
  dials (trace (snd (Update c s))) = dials (trace s).
Proof.
  split; [apply Get_dials|]. split.
  - intros Hne. destruct o as [|w|w| |w|w b|w b]; simpl.
    + congruence.
    + apply same_dials_put.
    + apply same_dials_Close.
    + apply same_dials_sweep.
    + apply same_dials_set_unusable.
    + apply same_dials_Write.
    + apply same_dials_Read.
  - rewrite (proj2 (Update_heap_trace c s)). reflexivity.
Qed.

(** X14: acquiring, marking a handle unusable, reading, writing and
    resizing never close a transport; in particular [Get] does not close
    the transport of an unusable handle that it pops and replaces, and
    [Update] does not close the transports of the handles it drops. *)
Theorem X14_who_never_closes_a_transport (w : wptr) (io_ok : bool) (c : Config)
    (t : conn) (s : state) :
  closes t (trace (snd (Get clock s))) = closes t (trace s) /\
  closes t (trace (snd (MarkUnusable w s))) = closes t (trace s) /\
  closes t (trace (snd (Write clock w io_ok s))) = closes t (trace s) /\
  closes t (trace (snd (Read clock w io_ok s))) = closes t (trace s) /\
  closes t (trace (snd (Update c s))) = closes t (trace s).
Proof.
  split; [apply same_closes_Get|]. split; [apply same_closes_set_unusable|].
  split; [apply same_closes_Write|]. split; [apply same_closes_Read|].
  rewrite (proj2 (Update_heap_trace c s)). reflexivity.
Qed.
End Never.

(** ** Resizing, continued *)

Lemma Merge_unchanged (c new : Config) :
  snd (Merge c new) = false -> fst (Merge c new) = c.
Proof.
  rewrite Merge_changed. intros H.
  repeat (apply orb_false_iff in H as [H ?]).
  rewrite (Merge_no_wants c new); [reflexivity|assumption..].
Qed.

Lemma is_int_small (z : Z) : -1000 <= z <= 1000 -> is_int z.
Proof. unfold is_int, min_int, max_int. lia. Qed.

Lemma reachable_upd_run_all (clock : nat -> Z) (defaultFactory : Factory)
    (os : list op) (s : state) :
  reachable_upd clock defaultFactory s ->
  reachable_upd clock defaultFactory (run_all clock os s).
Proof.
  revert s. induction os as [|o os IH]; intros s H; simpl; [exact H|].
  apply IH. apply reach_upd_step. exact H.
Qed.

Lemma one_queued_reachable : reachable_upd clock0 dial_fresh one_queued.
Proof.
  apply reachable_upd_run_all.
  apply (reach_upd_init clock0 dial_fresh "db:5432" (caller_config FIFO 0 2) None).
  - apply is_int_small. simpl. lia.
  - reflexivity.
Qed.

Lemma grown_reachable : reachable_upd clock0 dial_fresh grown.
Proof.
  apply reach_upd_update; [apply is_int_small; simpl; lia|].
  exact one_queued_reachable.
Qed.

Lemma X10_witness :
  tunables_positive (config (pool grown)) /\
  InitCap (config (pool grown)) = 0 /\ cacheMethod (config (pool grown)) = FIFO.
Proof.
  exact (X10_pool_configuration_stays_positive clock0 dial_fresh grown grown_reachable).
Defined.

Lemma X11_witness :
  exists q,
    conns (pool grown) = Some q /\
    BlockingDeque.gate_cap q = MaxCap (config (pool grown)) /\
    Z.of_nat (BlockingDeque.gate_len q) <= MaxCap (config (pool grown)) /\
    (length (Deque.container (BlockingDeque.dq q)) <= BlockingDeque.gate_len q)%nat.
Proof.
  exact (X11_gate_bounds_survive_Update clock0 dial_fresh grown grown_reachable).
Defined.

(** X15: [Update] on a pool returns (it neither panics nor blocks) and
    installs the merged configuration.  When the merge changes the
    capacity it replaces the queue by a new one with an empty deque and
    (new capacity - old capacity) tokens, none when the pool shrinks: the
    handles queued before are dropped, and neither they nor any transport
    is touched.  When the capacity stays the same, so does the queue. *)
Theorem X15_Update_installs_an_empty_queue
    (clock : nat -> Z) (defaultFactory : Factory) (c : Config) (s : state) :
  reachable_upd clock defaultFactory s ->
  is_int (MaxCap c) ->
  fst (Update c s) = Ret tt /\
  config (pool (snd (Update c s))) = fst (Merge (config (pool s)) c) /\
  (MaxCap (fst (Merge (config (pool s)) c)) = MaxCap (config (pool s)) ->
   conns (pool (snd (Update c s))) = conns (pool s)) /\
  (MaxCap (fst (Merge (config (pool s)) c)) <> MaxCap (config (pool s)) ->
   conns (pool (snd (Update c s))) =
     Some (resized_queue (MaxCap (config (pool s)))
             (MaxCap (fst (Merge (config (pool s)) c))))) /\
  heap (snd (Update c s)) = heap s /\
  trace (snd (Update c s)) = trace s.
Proof.
  intros Hr Hc. apply reachable_upd_inv in Hr as (Hok & Hint & Hpos).
  assert (H0 : 0 <= MaxCap (config (pool s))) by (destruct Hpos as (P & _); lia).
  rewrite (Update_eq c s Hc Hint H0). simpl.
  split; [reflexivity|].
  destruct (snd (Merge (config (pool s)) c)) eqn:Hch.
  - destruct (Z.eqb_spec (MaxCap (fst (Merge (config (pool s)) c))) (MaxCap (config (pool s))))
      as [Heq|Hne]; simpl.
    + split; [reflexivity|]. split; [reflexivity|]. split; [congruence|]. split; reflexivity.
    + split; [reflexivity|]. split; [congruence|]. split; [reflexivity|]. split; reflexivity.
  - rewrite (Merge_unchanged _ _ Hch).
    split; [reflexivity|]. split; [reflexivity|]. split; [congruence|]. split; reflexivity.
Qed.

Lemma X15_witness :
  conns (pool one_queued) =
    Some {| BlockingDeque.dq := {| Deque.container := [Ptr 0]; Deque.capacity := 2 |};
            BlockingDeque.gate_cap := 2; BlockingDeque.gate_len := 2 |} /\
  conns (pool grown) = Some (resized_queue 2 3) /\
  trace grown = trace one_queued.
Proof.
  destruct (X15_Update_installs_an_empty_queue clock0 dial_fresh (caller_config FIFO 0 3)
              one_queued one_queued_reachable (is_int_small 3 ltac:(lia)))
    as (_ & _ & _ & Hq & _ & Ht).
  split; [reflexivity|]. split; [|exact Ht].
  apply Hq. simpl. discriminate.
Defined.

(** ** Acquiring, continued *)

Section Acquire.
Variable clock : nat -> Z.
Variable defaultFactory : Factory.

Lemma Get_empty_gate (s : state) (q : BlockingDeque.blockingDeque wptr) :
  conns (pool s) = Some q -> BlockingDeque.gate_len q = O ->
  Get clock s = (Ret (Err ErrTimeout), s).
Proof.
  intros Hq H0. unfold Get, bind, get_pool; simpl. rewrite Hq.
  unfold BlockingDeque.pop. rewrite H0. reflexivity.
Qed.


(** X17: a failed dial costs the pool a unit of capacity: when [Get]
    returns the factory's error, the token it took from the gate is not
    given back (and the element it popped is not put back), while the heap
    is unchanged. *)
Theorem X17_failed_dial_keeps_the_token
    (s : state) (q : BlockingDeque.blockingDeque wptr) (msg : string) :
  conns (pool s) = Some q ->
  fst (Get clock s) = Ret (Err (errDial msg)) ->
  exists n,
    BlockingDeque.gate_len q = S n /\
    conns (pool (snd (Get clock s))) =
      Some {| BlockingDeque.dq := fst (Deque.pop (BlockingDeque.dq q));
              BlockingDeque.gate_cap := BlockingDeque.gate_cap q;
              BlockingDeque.gate_len := n |} /\
    heap (snd (Get clock s)) = heap s /\
    dials (trace (snd (Get clock s))) = S (dials (trace s)).
Proof.
  intros Hq.
  destruct (BlockingDeque.gate_len q) as [|n] eqn:Hn.
  - rewrite (Get_empty_gate s q Hq Hn). discriminate.
  - rewrite (Get_after_acquire clock s q n Hq Hn). simpl. intros Hr. exists n.
    split; [reflexivity|].
    assert (Hnew : forall s1 : state,
               fst (NewWrapConn clock s1) = Ret (Err (errDial msg)) ->
               pool (snd (NewWrapConn clock s1)) = pool s1 /\
               heap (snd (NewWrapConn clock s1)) = heap s1 /\
               dials (trace (snd (NewWrapConn clock s1))) = S (dials (trace s1))).
    { intros s1 H1. split; [apply keeps_pool_NewWrapConn|].
      split; [|apply NewWrapConn_dials].
      rewrite NewWrapConn_eq in *. simpl in *.
      destruct (factory (pool s1) (address (pool s1)) (DialTimeout (config (pool s1)))
                  (trace s1)); [discriminate|reflexivity]. }
    destruct (snd (Deque.pop (BlockingDeque.dq q))) as [[|a]|].
    + discriminate.
    + destruct (heap s !! a) as [h|]; [|discriminate].
      destruct (unusable h); [|discriminate].
      destruct (Hnew _ Hr) as (Hp & Hh & Hd). rewrite Hp, Hh, Hd. repeat split.
    + destruct (Hnew _ Hr) as (Hp & Hh & Hd). rewrite Hp, Hh, Hd. repeat split.
Qed.
End Acquire.


Lemma X17_witness :
  exists n,
    1%nat = S n /\
    conns (pool (snd (Get clock0 unreachable_server))) =
      Some {| BlockingDeque.dq := Deque.newDeque 1;
              BlockingDeque.gate_cap := 1; BlockingDeque.gate_len := n |} /\
    heap (snd (Get clock0 unreachable_server)) = [] /\
    dials (trace (snd (Get clock0 unreachable_server))) = 1%nat.
Proof.
  exact (X17_failed_dial_keeps_the_token clock0 unreachable_server
           {| BlockingDeque.dq := Deque.newDeque 1;
              BlockingDeque.gate_cap := 1; BlockingDeque.gate_len := 1 |}
           "connection refused" eq_refl eq_refl).
Defined.

(** ** Acquire, release, acquire *)



(** What is known of the state in which [Get] returned a handle. *)
Lemma Get_Ok_inv (clock : nat -> Z) (s s1 : state)
    (q : BlockingDeque.blockingDeque wptr) (a : nat) :
  conns (pool s) = Some q ->
  Get clock s = (Ret (Ok (Ptr a)), s1) ->
  exists n h,
    BlockingDeque.gate_len q = S n /\
    pool s1 =
      with_conns (Some {| BlockingDeque.dq := fst (Deque.pop (BlockingDeque.dq q));
                          BlockingDeque.gate_cap := BlockingDeque.gate_cap q;
                          BlockingDeque.gate_len := n |}) (pool s) /\
    heap s1 !! a = Some h /\ unusable h = false.
Proof.
  intros Hq.
  destruct (BlockingDeque.gate_len q) as [|n] eqn:Hn.
  - unfold Get, bind, get_pool; simpl. rewrite Hq.
    unfold BlockingDeque.pop. rewrite Hn. discriminate.
  - rewrite (Get_after_acquire clock s q n Hq Hn). simpl.
    assert (Hnew : forall s0 : state,
               NewWrapConn clock s0 = (Ret (Ok (Ptr a)), s1) ->
               exists h, pool s1 = pool s0 /\ heap s1 !! a = Some h /\ unusable h = false).
    { intros s0. rewrite NewWrapConn_eq. simpl.
      destruct (factory (pool s0) (address (pool s0)) (DialTimeout (config (pool s0)))
                  (trace s0)) as [c|msg]; [|discriminate].
      intros [= <- <-]. eexists. split; [reflexivity|]. simpl.
      split; [apply list_lookup_middle; reflexivity|reflexivity]. }
    destruct (snd (Deque.pop (BlockingDeque.dq q))) as [[|a']|].
    + discriminate.
    + destruct (heap s !! a') as [h|] eqn:Ha'; [|discriminate].
      destruct (unusable h) eqn:Hu.
      * intros H. destruct (Hnew _ H) as (h' & Hp & Hh & Hu').
        exists n, h'. repeat split; assumption.
      * intros [= <- <-]. exists n, h. repeat split; assumption.
    + intros H. destruct (Hnew _ H) as (h' & Hp & Hh & Hu').
      exists n, h'. repeat split; assumption.
Qed.



(** ** The idle sweep, continued *)

Section SweepMore.
Variable clock : nat -> Z.

Lemma walk_spares_absent (items : list wptr) :
  forall (s : state) (b : nat) (hb : WrappedConn),
    heap s !! b = Some hb ->
    ~ In (Ptr b) items ->
    heap (snd (Deque.walk_items (idle_visit clock) items s)) !! b = Some hb.
Proof.
  induction items as [|x rest IH]; intros s b hb Hb Hnot; simpl; [exact Hb|].
  assert (Hx : x <> Ptr b) by (intros ->; apply Hnot; left; reflexivity).
  assert (Hrest : ~ In (Ptr b) rest) by (intros Hin; apply Hnot; right; exact Hin).
  destruct x as [|a].
  - simpl. exact Hb.
  - destruct (heap s !! a) as [h|] eqn:Ha.
    + rewrite (visit_Ptr clock s a h Ha).
      apply IH; [|exact Hrest].
      destruct (IdleTimeout (config (pool s)) <? time_since (clock (ticks s)) (lastAccess h));
        simpl; [|exact Hb].
      rewrite list_lookup_insert_ne; [exact Hb|]. intros ->. apply Hx. reflexivity.
    + unfold idle_visit, checkIdle, bind, load. rewrite Ha. simpl. exact Hb.
Qed.

(** X19: the sweep only ever touches handles that sit in the deque: a
    handle that is checked out (not stored in the deque) keeps its
    unusable flag and its last access, however long it has been idle. *)
Theorem X19_sweep_spares_checked_out_handles
    (s : state) (q : BlockingDeque.blockingDeque wptr) (b : nat) (hb : WrappedConn) :
  conns (pool s) = Some q ->
  heap s !! b = Some hb ->
  ~ In (Ptr b) (Deque.container (BlockingDeque.dq q)) ->
  heap (snd (sweep clock s)) !! b = Some hb.
Proof.
  intros Hq Hb Hnot. unfold sweep, bind, get_pool; simpl. rewrite Hq.
  apply walk_spares_absent; assumption.
Qed.

Lemma walk_quiet (items : list wptr) :
  forall (s : state),
    (forall i a h,
       items !! i = Some (Ptr a) -> heap s !! a = Some h ->
       time_since (clock (ticks s + i)%nat) (lastAccess h) <= IdleTimeout (config (pool s))) ->
    heap (snd (Deque.walk_items (idle_visit clock) items s)) = heap s /\
    trace (snd (Deque.walk_items (idle_visit clock) items s)) = trace s.
Proof.
  induction items as [|x rest IH]; intros s Hfresh; simpl; [split; reflexivity|].
  destruct x as [|a]; [split; reflexivity|].
  destruct (heap s !! a) as [h|] eqn:Ha.
  - rewrite (visit_Ptr clock s a h Ha).
    pose proof (Hfresh O a h eq_refl Ha) as H0. rewrite Nat.add_0_r in H0.
    destruct (Z.ltb_spec (IdleTimeout (config (pool s)))
                (time_since (clock (ticks s)) (lastAccess h))) as [Hlt|_]; [lia|].
    destruct (IH (tick s)) as [Hh Ht]; [|split; [rewrite Hh|rewrite Ht]; reflexivity].
    intros i a' h' Hi Ha'.
    change (ticks (tick s)) with (S (ticks s)).
    replace (S (ticks s) + i)%nat with (ticks s + S i)%nat by lia.
    exact (Hfresh (S i) a' h' Hi Ha').
  - unfold idle_visit, checkIdle, bind, load. rewrite Ha. split; reflexivity.
Qed.

(** X20: a sweep that finds no handle idle beyond the timeout (the time
    since the last access, read when the handle is visited, is at most
    [IdleTimeout]) marks nothing and closes nothing: heap, trace and pool
    record are as before. *)
Theorem X20_sweep_without_idle_handles_changes_nothing
    (s : state) (q : BlockingDeque.blockingDeque wptr) :
  conns (pool s) = Some q ->
  (forall i a h,
     Deque.container (BlockingDeque.dq q) !! i = Some (Ptr a) -> heap s !! a = Some h ->
     time_since (clock (ticks s + i)%nat) (lastAccess h) <= IdleTimeout (config (pool s))) ->
  heap (snd (sweep clock s)) = heap s /\
  trace (snd (sweep clock s)) = trace s /\
  pool (snd (sweep clock s)) = pool s.
Proof.
  intros Hq Hfresh. split; [|split; [|apply keeps_pool_sweep]].
  - unfold sweep, bind, get_pool; simpl. rewrite Hq.
    apply (walk_quiet _ s Hfresh).
  - unfold sweep, bind, get_pool; simpl. rewrite Hq.
    apply (walk_quiet _ s Hfresh).
Qed.
End SweepMore.

Lemma X19_witness :
  heap (snd (sweep clock0 one_out)) !! 1%nat =
    Some {| Conn := 1%nat; unusable := false; lastAccess := 1 * Second |} /\
  heap (snd (sweep clock0 one_out)) !! 0%nat =
    Some {| Conn := 0%nat; unusable := true; lastAccess := 0 |}.
Proof.
  split; [|reflexivity].
  apply (X19_sweep_spares_checked_out_handles clock0 one_out
           {| BlockingDeque.dq := {| Deque.container := [Ptr 0]; Deque.capacity := 2 |};
              BlockingDeque.gate_cap := 2; BlockingDeque.gate_len := 1 |}).
  - reflexivity.
  - reflexivity.
  - simpl. intros [H|[]]. discriminate.
Defined.

Lemma X20_witness :
  heap (snd (sweep clock0 one_queued)) = heap one_queued /\
  trace (snd (sweep clock0 one_queued)) = trace one_queued.
Proof.
  destruct (X20_sweep_without_idle_handles_changes_nothing clock0 one_queued
              {| BlockingDeque.dq := {| Deque.container := [Ptr 0]; Deque.capacity := 2 |};
                 BlockingDeque.gate_cap := 2; BlockingDeque.gate_len := 2 |})
    as (Hh & Ht & _).
  - reflexivity.
  - intros i a h Hi Ha. destruct i as [|i]; [|destruct i; discriminate].
    injection Hi as <-. injection Ha as <-. vm_compute. discriminate.
  - split; assumption.
Defined.

(** ** A pool whose queue pointer is nil *)

(** X21: on a pool whose queue pointer is nil, [Get] returns [ErrClosed]
    and changes nothing; a release closes the transport of the handle and
    returns [ErrClosed]; closing a usable handle therefore closes its
    transport twice (once in the release, once for the reported error),
    and closing an unusable handle panics, since the nil marker it hands
    to the release is destroyed there. *)
Theorem X21_operations_on_a_nil_queue
    (clock : nat -> Z) (s : state) (a : nat) (h : WrappedConn) :
  conns (pool s) = None ->
  heap s !! a = Some h ->
  Get clock s = (Ret (Err ErrClosed), s) /\
  put (Ptr a) s = (Ret (Some ErrClosed), log (EvClose (Conn h)) s) /\
  (unusable h = false ->
   Close (Ptr a) s = (Ret tt, log (EvClose (Conn h)) (log (EvClose (Conn h)) s))) /\
  (unusable h = true ->
   Close (Ptr a) s = (Panic, log (EvClose (Conn h)) s)).
Proof.
  intros Hq Ha.
  assert (Hput : put (Ptr a) s = (Ret (Some ErrClosed), log (EvClose (Conn h)) s)).
  { unfold put, putBottom, putTop, bind, get_pool; simpl.
    destruct (cacheMethod (config (pool s)) =? FIFO);
      rewrite Hq, (destroy_Ptr s a h Ha); reflexivity. }
  split; [|split; [exact Hput|split]].
  - unfold Get, bind, get_pool; simpl. rewrite Hq. reflexivity.
  - intros Hu. unfold Close. unfold bind at 1. rewrite (load_Ptr s a h Ha), Hu.
    unfold bind. rewrite Hput.
    rewrite (destroy_Ptr (log (EvClose (Conn h)) s) a h Ha). reflexivity.
  - intros Hu. unfold Close. unfold bind at 1. rewrite (load_Ptr s a h Ha), Hu.
    unfold bind. rewrite (destroy_Ptr s a h Ha).
    unfold putBottom, bind, get_pool; simpl. rewrite Hq. reflexivity.
Qed.

Lemma X21_witness :
  Get clock0 closed_pool = (Ret (Err ErrClosed), closed_pool) /\
  closes 0%nat (trace (snd (Close (Ptr 0) closed_pool))) = 2%nat.
Proof.
  destruct (X21_operations_on_a_nil_queue clock0 closed_pool 0
              {| Conn := 0%nat; unusable := false; lastAccess := 0 |} eq_refl eq_refl)
    as (HG & _ & HC & _).
  split; [exact HG|]. rewrite (HC eq_refl). reflexivity.
Defined.

(** ** Capacity *)




(** ** The token of a handle *)

(** X23: the token that [Get] took for a handle comes back when the handle
    is closed, whether the handle is still usable or was marked unusable
    in between: after the close the gate holds as many tokens as before
    the [Get]. *)
Theorem X23_Close_gives_the_token_back
    (clock : nat -> Z) (defaultFactory : Factory)
    (s s1 : state) (q : BlockingDeque.blockingDeque wptr) (a : nat) :
  reachable_upd clock defaultFactory s ->
  conns (pool s) = Some q ->
  Get clock s = (Ret (Ok (Ptr a)), s1) ->
  (exists q2,
     conns (pool (snd (Close (Ptr a) s1))) = Some q2 /\
     BlockingDeque.gate_len q2 = BlockingDeque.gate_len q) /\
  (exists q2,
     conns (pool (snd (Close (Ptr a) (snd (MarkUnusable (Ptr a) s1))))) = Some q2 /\
     BlockingDeque.gate_len q2 = BlockingDeque.gate_len q /\
     exists front, Deque.container (BlockingDeque.dq q2) = front ++ [Nil]).
Proof.
  intros Hr Hq HG. apply reachable_upd_inv in Hr as (Hok & _ & _).
  destruct Hok as (q0 & Hq0 & Hwf & Hcap & _ & Hcm).
  assert (q0 = q) by congruence. subst q0.
  destruct (Get_Ok_inv clock s s1 q a Hq HG) as (n & h & Hn & Hp & Hh & Hu).
  set (q1 := {| BlockingDeque.dq := fst (Deque.pop (BlockingDeque.dq q));
                BlockingDeque.gate_cap := BlockingDeque.gate_cap q;
                BlockingDeque.gate_len := n |}) in *.
  assert (Hq1 : conns (pool s1) = Some q1) by (rewrite Hp; reflexivity).
  assert (Hwf1 : BlockingDeque.wf q1).
  { pose proof (wf_pop q 0 Hwf) as Hw. unfold BlockingDeque.pop in Hw. rewrite Hn in Hw.
    destruct (Deque.pop (BlockingDeque.dq q)) as [d e]. exact Hw. }
  assert (Hf1 : BlockingDeque.gate_full q1 = false).
  { destruct Hwf as (_ & _ & _ & Hg). unfold BlockingDeque.gate_full. simpl.
    apply Z.leb_gt. lia. }
  assert (Hcm1 : cacheMethod (config (pool s1)) = FIFO) by (rewrite Hp; exact Hcm).
  split.
  - rewrite (Close_usable s1 q1 a h Hq1 Hh Hu). simpl.
    unfold released. rewrite Hcm1. simpl.
    rewrite (append_wf q1 (Ptr a) Hwf1), Hf1.
    eexists. split; [reflexivity|]. simpl. congruence.
  - unfold MarkUnusable. rewrite (set_unusable_Ptr s1 a h Hh). simpl.
    assert (Hm : heap (upd_heap (fun hp => <[a := mark h]> hp) s1) !! a = Some (mark h)).
    { simpl. apply list_lookup_insert_eq. apply lookup_lt_Some in Hh. exact Hh. }
    rewrite (Close_unusable (upd_heap (fun hp => <[a := mark h]> hp) s1) q1 a (mark h)
               Hq1 Hm eq_refl).
    simpl. rewrite (append_wf q1 Nil Hwf1), Hf1.
    eexists. split; [reflexivity|]. simpl. split; [congruence|].
    eexists. reflexivity.
Qed.

Lemma X23_witness :
  exists q2,
    conns (pool (snd (Close (Ptr 0) (snd (MarkUnusable (Ptr 0) (snd (Get clock0 one_queued)))))))
      = Some q2 /\
    BlockingDeque.gate_len q2 = 2%nat.
Proof.
  destruct (X23_Close_gives_the_token_back clock0 dial_fresh one_queued
              (snd (Get clock0 one_queued))
              {| BlockingDeque.dq := {| Deque.container := [Ptr 0]; Deque.capacity := 2 |};
                 BlockingDeque.gate_cap := 2; BlockingDeque.gate_len := 2 |}
              0 one_queued_reachable eq_refl eq_refl) as (_ & q2 & Hq2 & Hlen & _).
  exists q2. split; [exact Hq2|exact Hlen].
Defined.

(** ** Reading and writing *)

(** X24: a write (and likewise a read) on an allocated handle returns; when
    the transport reported no error it sets the last access to the clock
    reading and leaves the unusable flag as it was, so that an unusable
    handle is not made usable again; when the transport reported an error
    it sets the unusable flag and leaves the last access alone.  Pool,
    trace and every other handle stay as they were. *)
Theorem X24_Write_and_Read_update_the_handle
    (clock : nat -> Z) (s : state) (a : nat) (h : WrappedConn) :
  heap s !! a = Some h ->
  Write clock (Ptr a) true s =
    (Ret tt, upd_heap (fun hp => <[a := touch (clock (ticks s)) h]> hp) (tick s)) /\
  Write clock (Ptr a) false s = (Ret tt, upd_heap (fun hp => <[a := mark h]> hp) s) /\
  Read clock (Ptr a) true s = Write clock (Ptr a) true s /\
  Read clock (Ptr a) false s = Write clock (Ptr a) false s.
Proof.
  intros Ha. unfold Write, Read, bind. rewrite (load_Ptr s a h Ha). simpl.
  unfold set_lastAccess, bind, load. simpl. rewrite Ha.
  rewrite (set_unusable_Ptr s a h Ha). repeat split.
Qed.

Lemma X24_witness :
  heap (snd (Write clock0 (Ptr 0) false one_queued)) !! 0%nat =
    Some {| Conn := 0%nat; unusable := true; lastAccess := 0 |} /\
  heap (snd (Write clock0 (Ptr 0) true (snd (Write clock0 (Ptr 0) false one_queued)))) !! 0%nat =
    Some {| Conn := 0%nat; unusable := true; lastAccess := 1 * Second |}.
Proof.
  split.
  - rewrite (proj1 (proj2 (X24_Write_and_Read_update_the_handle clock0 one_queued 0
                             {| Conn := 0%nat; unusable := false; lastAccess := 0 |} eq_refl))).
    reflexivity.
  - reflexivity.
Defined.

(** ** Construction *)

(** X25: with a capacity that is a Go integer, [NewBlockingPool] returns
    the capacity error exactly when the caller's [InitCap] exceeds the
    caller's [MaxCap] (compared before the defaults are merged in), and
    otherwise returns a pool with the merged configuration, the given or
    the default factory, an empty deque and a full gate; it never invokes
    the factory. *)
Theorem X25_NewBlockingPool_result
    (clock : nat -> Z) (defaultFactory : Factory)
    (address : string) (c : Config) (factory : option Factory) :
  is_int (MaxCap c) ->
  NewBlockingPool clock defaultFactory address c factory =
    if MaxCap c <? InitCap c then Ret (Err errInvalidCapacity)
    else Ret (Ok (fresh_pool address c
                    match factory with Some f => f | None => defaultFactory end)).
Proof.
  intros Hint.
  destruct (Z.ltb_spec (MaxCap c) (InitCap c)) as [Hlt|Hle].
  - unfold NewBlockingPool.
    destruct (Z.ltb_spec (MaxCap c) (InitCap c)) as [_|Hge]; [reflexivity|lia].
  - destruct (NewBlockingPool_total clock defaultFactory address c factory Hle Hint) as [s Hs].
    rewrite Hs. pose proof (NewBlockingPool_Ok clock defaultFactory address c factory s Hs)
      as (_ & _ & _ & ->). simpl.
    assert (Hm : is_int (MaxCap (fst (Merge defaultConfig c)))).
    { rewrite Merge_MaxCap. change (MaxCap defaultConfig) with 1.
      destruct (Z.ltb_spec 0 (MaxCap c)); [assumption|].
      unfold is_int, min_int, max_int. lia. }
    unfold fresh_pool, int_sub. rewrite Z.sub_0_r, (wrap64_id _ Hm). reflexivity.
Qed.

Lemma X25_witness :
  NewBlockingPool clock0 dial_fresh "db:5432" (caller_config FIFO 1 0) None =
    Ret (Err errInvalidCapacity).
Proof.
  exact (X25_NewBlockingPool_result clock0 dial_fresh "db:5432" (caller_config FIFO 1 0) None
           (is_int_small 0 ltac:(lia))).
Defined.
